(** * faiss GPU resources: allocation descriptors, memory reservations,
      and the warp-level top-k selector.

    The first two parts embed [faiss/gpu/GpuResources.cpp]; the third
    is the selector instantiated by [WARP_SELECT_IMPL].  Objects of
    class [GpuMemoryReservation] live in a store indexed by variable
    names, member functions are programs of a small state-and-failure
    monad that read and write single fields (so that a reservation
    move-assigned onto itself behaves as the C++ does), and every call
    of the virtual [GpuResources::deallocMemory] is appended to a trace. *)

From Stdlib Require Import ZArith NArith List Lia.
From stdpp Require Import base gmap list sorting strings pretty.

(** ** Allocation descriptors *)

Module AllocDesc.

Local Open Scope string_scope.

(** [enum AllocType].  A C++ enumeration object can hold a value of its
    underlying integer type that is none of the named enumerators; such a
    value reaches the [default:] label of a [switch].  The last
    constructor stands for these values. *)
Inductive AllocType : Type :=
  | Other
  | FlatData
  | IVFLists
  | Quantizer
  | QuantizerPrecomputedCodes
  | TemporaryMemoryBuffer
  | TemporaryMemoryOverflow
  | AllocTypeUnnamed (raw : Z).

(** [enum MemorySpace], with the same convention. *)
Inductive MemorySpace : Type :=
  | Temporary
  | Device
  | Unified
  | MemorySpaceUnnamed (raw : Z).

Definition allocTypeToString (t : AllocType) : string :=
  match t with
  | Other => "Other"
  | FlatData => "FlatData"
  | IVFLists => "IVFLists"
  | Quantizer => "Quantizer"
  | QuantizerPrecomputedCodes => "QuantizerPrecomputedCodes"
  | TemporaryMemoryBuffer => "TemporaryMemoryBuffer"
  | TemporaryMemoryOverflow => "TemporaryMemoryOverflow"
  | AllocTypeUnnamed _ => "Unknown"
  end.

Definition memorySpaceToString (s : MemorySpace) : string :=
  match s with
  | Temporary => "Temporary"
  | Device => "Device"
  | Unified => "Unified"
  | MemorySpaceUnnamed _ => "Unknown"
  end.

(** [struct AllocInfo]: [device] is an [int], [stream] a [cudaStream_t]
    (a pointer, kept as its address; 0 is [nullptr]). *)
Record AllocInfo : Type := mkAllocInfo {
  type : AllocType;
  device : Z;
  space : MemorySpace;
  stream : Z
}.

(** [struct AllocRequest : public AllocInfo], with [size_t size]. *)
Record AllocRequest : Type := mkAllocRequest {
  info : AllocInfo;
  size : N
}.

(** The three [operator<<] overloads of [std::ostream] that the
    renderings use: for [int], for [void*] and for [size_t].  They belong
    to the C++ library, and the text printed for a pointer is left to the
    implementation, so the renderings take them as a parameter. *)
Record OStream : Type := mkOStream {
  put_int : Z -> string;
  put_ptr : Z -> string;
  put_size : N -> string
}.

(** A [std::stringstream] grows on the right at each [<<]. *)
Definition AllocInfo_toString (os : OStream) (a : AllocInfo) : string :=
  let ss := "" in
  let ss := ss +:+ "type " in
  let ss := ss +:+ allocTypeToString (type a) in
  let ss := ss +:+ " dev " in
  let ss := ss +:+ put_int os (device a) in
  let ss := ss +:+ " space " in
  let ss := ss +:+ memorySpaceToString (space a) in
  let ss := ss +:+ " stream " in
  let ss := ss +:+ put_ptr os (stream a) in
  ss.

Definition AllocRequest_toString (os : OStream) (r : AllocRequest) : string :=
  let ss := "" in
  let ss := ss +:+ AllocInfo_toString os (info r) in
  let ss := ss +:+ " size " in
  let ss := ss +:+ put_size os (size r) in
  let ss := ss +:+ " bytes" in
  ss.

(** [t] occurs in [s] as a contiguous piece. *)
Definition occurs_in (t s : string) : Prop :=
  exists pre post : string, s = pre +:+ t +:+ post.

(** The part of the CUDA runtime that [getCurrentDevice()] of
    [DeviceUtils.h] reads: the device that is active for the calling
    thread. *)
Record CudaRuntime : Type := mkCudaRuntime {
  active_device : Z
}.

Definition getCurrentDevice (rt : CudaRuntime) : Z := active_device rt.

Definition makeDevAlloc (rt : CudaRuntime) (at_ : AllocType) (st : Z) : AllocInfo :=
  mkAllocInfo at_ (getCurrentDevice rt) Device st.

Definition makeTempAlloc (rt : CudaRuntime) (at_ : AllocType) (st : Z) : AllocInfo :=
  mkAllocInfo at_ (getCurrentDevice rt) Temporary st.

Definition makeSpaceAlloc (rt : CudaRuntime) (at_ : AllocType) (sp : MemorySpace)
    (st : Z) : AllocInfo :=
  mkAllocInfo at_ (getCurrentDevice rt) sp st.

(** One concrete choice of the stream operators, for examples: decimal
    numbers, and a pointer printed as its address in decimal. *)
Definition decimal_ostream : OStream :=
  mkOStream (fun z => pretty z) (fun p => pretty p) (fun n => pretty n).

End AllocDesc.

(** ** Memory reservations *)

Module Reservation.

(** The fields of [class GpuMemoryReservation].  Pointers ([GpuResources*],
    [cudaStream_t], [void*]) are addresses, 0 being [nullptr]. *)
Record GpuMemoryReservation : Type := mkReservation {
  res : Z;
  device : Z;
  stream : Z;
  data : Z;
  size : N
}.

Definition nullptr : Z := 0.

(** What the default constructor builds, and what moving from or
    releasing a reservation leaves behind. *)
Definition empty_state : GpuMemoryReservation :=
  mkReservation nullptr 0 nullptr nullptr 0.

(** A pointer used as a condition, as in [if (res)]. *)
Definition truthy (p : Z) : bool := negb (p =? nullptr)%Z.

(** One call [res->deallocMemory(device, data)]: the receiver and the two
    arguments. *)
Record DeallocCall : Type := mkCall {
  call_res : Z;
  call_device : Z;
  call_data : Z
}.

(** The reservation objects that are alive, by variable, and the calls of
    [deallocMemory] made so far, oldest first. *)
Record World : Type := mkWorld {
  objs : gmap nat GpuMemoryReservation;
  calls : list DeallocCall
}.

Definition init : World := mkWorld ∅ [].

(** Outcome of a piece of code: it returns, or [FAISS_ASSERT] stops the
    process in the world it was reached in, or the code touches an object
    outside its lifetime, which C++ gives no meaning. *)
Inductive outcome (A : Type) : Type :=
  | Ok (a : A) (w : World)
  | Fatal (w : World)
  | Undefined.
Arguments Ok {A} a w.
Arguments Fatal {A} w.
Arguments Undefined {A}.

Definition M (A : Type) : Type := World -> outcome A.

Definition ret {A : Type} (a : A) : M A := fun w => Ok a w.

Definition bind {A B : Type} (m : M A) (k : A -> M B) : M B :=
  fun w =>
    match m w with
    | Ok a w' => k a w'
    | Fatal w' => Fatal w'
    | Undefined => Undefined
    end.

Notation "x <~ m ; k" := (bind m (fun x => k))
  (at level 20, m at level 100, k at level 200, only parsing).
Notation "m ;;; k" := (bind m (fun _ => k))
  (at level 100, k at level 200, only parsing, right associativity).

(** Reading a field of the object named [x]. *)
Definition load {A : Type} (f : GpuMemoryReservation -> A) (x : nat) : M A :=
  fun w =>
    match objs w !! x with
    | Some r => Ok (f r) w
    | None => Undefined
    end.

(** Writing into the object named [x]. *)
Definition store (g : GpuMemoryReservation -> GpuMemoryReservation) (x : nat) : M unit :=
  fun w =>
    match objs w !! x with
    | Some r => Ok tt (mkWorld (<[x := g r]> (objs w)) (calls w))
    | None => Undefined
    end.

Definition set_res (v : Z) (r : GpuMemoryReservation) : GpuMemoryReservation :=
  mkReservation v (device r) (stream r) (data r) (size r).
Definition set_device (v : Z) (r : GpuMemoryReservation) : GpuMemoryReservation :=
  mkReservation (res r) v (stream r) (data r) (size r).
Definition set_stream (v : Z) (r : GpuMemoryReservation) : GpuMemoryReservation :=
  mkReservation (res r) (device r) v (data r) (size r).
Definition set_data (v : Z) (r : GpuMemoryReservation) : GpuMemoryReservation :=
  mkReservation (res r) (device r) (stream r) v (size r).
Definition set_size (v : N) (r : GpuMemoryReservation) : GpuMemoryReservation :=
  mkReservation (res r) (device r) (stream r) (data r) v.

(** Storage for a new object named [x]; a name in use cannot be declared
    again. *)
Definition declare (x : nat) (r : GpuMemoryReservation) : M unit :=
  fun w =>
    match objs w !! x with
    | Some _ => Undefined
    | None => Ok tt (mkWorld (<[x := r]> (objs w)) (calls w))
    end.

(** End of the storage of [x]. *)
Definition dispose (x : nat) : M unit :=
  fun w =>
    match objs w !! x with
    | Some _ => Ok tt (mkWorld (delete x (objs w)) (calls w))
    | None => Undefined
    end.

(** [GpuResources::deallocMemory] is pure virtual; a call is recorded. *)
Definition deallocMemory (r : Z) (dev : Z) (p : Z) : M unit :=
  fun w => Ok tt (mkWorld (objs w) (calls w ++ [mkCall r dev p])).

(** Modelled from the spec: the macro FAISS_ASSERT is defined in
    FaissAssert.h, which is not part of the sources at hand.  The spec
    calls its failure "a fatal programming error (assertion), not a
    recoverable condition": nothing runs after it. *)
Definition FAISS_ASSERT (c : bool) : M unit :=
  fun w => if c then Ok tt w else Fatal w.

(** [GpuMemoryReservation::GpuMemoryReservation()] *)
Definition default_ctor (this : nat) : M unit :=
  declare this (mkReservation nullptr 0 nullptr nullptr 0).

(** [GpuMemoryReservation(GpuResources* r, int dev, cudaStream_t str,
    void* p, size_t sz)] *)
Definition ctor (this : nat) (r dev str p : Z) (sz : N) : M unit :=
  declare this (mkReservation r dev str p sz).

(** The ten assignments shared by the move constructor and the move
    assignment operator, in the order of the source. *)
Definition take_fields (this m : nat) : M unit :=
  v <~ load res m ; store (set_res v) this ;;;
  store (set_res nullptr) m ;;;
  v <~ load device m ; store (set_device v) this ;;;
  store (set_device 0) m ;;;
  v <~ load stream m ; store (set_stream v) this ;;;
  store (set_stream nullptr) m ;;;
  v <~ load data m ; store (set_data v) this ;;;
  store (set_data nullptr) m ;;;
  v <~ load size m ; store (set_size v) this ;;;
  store (set_size 0%N) m.

(** [GpuMemoryReservation(GpuMemoryReservation&& m) noexcept].  The
    members of the new object have no initializer; each is assigned
    before anything reads it, so [junk], the content of the fresh
    storage, does not matter. *)
Definition move_ctor_from (junk : GpuMemoryReservation) (this m : nat) : M unit :=
  _ <~ load res m ;
  declare this junk ;;;
  take_fields this m.

Definition move_ctor (this m : nat) : M unit :=
  move_ctor_from empty_state this m.

(** [void GpuMemoryReservation::release()] *)
Definition release (this : nat) : M unit :=
  r <~ load res this ;
  if truthy r then
    dev <~ load device this ;
    p <~ load data this ;
    deallocMemory r dev p ;;;
    store (set_res nullptr) this ;;;
    store (set_device 0) this ;;;
    store (set_stream nullptr) this ;;;
    store (set_data nullptr) this ;;;
    store (set_size 0%N) this
  else ret tt.

(** The condition handed to [FAISS_ASSERT] in the move assignment. *)
Definition same_live_allocation (d s : GpuMemoryReservation) : bool :=
  truthy (res d) && (res d =? res s)%Z && (device d =? device s)%Z
  && (data d =? data s)%Z.

(** [GpuMemoryReservation& operator=(GpuMemoryReservation&& m)] *)
Definition move_assign (this m : nat) : M unit :=
  d <~ load id this ;
  s <~ load id m ;
  FAISS_ASSERT (negb (same_live_allocation d s)) ;;;
  release this ;;;
  take_fields this m.

(** [GpuMemoryReservation::~GpuMemoryReservation()], followed by the end
    of the object's storage. *)
Definition dtor (this : nat) : M unit :=
  r <~ load res this ;
  (if truthy r then
     dev <~ load device this ;
     p <~ load data this ;
     deallocMemory r dev p
   else ret tt) ;;;
  dispose this.

(** The operations a client can apply to reservation objects. *)
Inductive op : Type :=
  | DefaultConstruct (x : nat)
  | Construct (x : nat) (r dev str p : Z) (sz : N)
  | MoveConstruct (x m : nat)
  | MoveAssign (d m : nat)
  | Release (x : nat)
  | Destroy (x : nat).

Definition exec (o : op) : M unit :=
  match o with
  | DefaultConstruct x => default_ctor x
  | Construct x r dev str p sz => ctor x r dev str p sz
  | MoveConstruct x m => move_ctor x m
  | MoveAssign d m => move_assign d m
  | Release x => release x
  | Destroy x => dtor x
  end.

Fixpoint run (ops : list op) : M unit :=
  match ops with
  | [] => ret tt
  | o :: rest => exec o ;;; run rest
  end.

(** The allocation a reservation answers for: none when its resource
    pointer is null. *)
Definition owned (r : GpuMemoryReservation) : list DeallocCall :=
  if truthy (res r) then [mkCall (res r) (device r) (data r)] else [].

(** The allocations held by the objects alive. *)
Definition held (h : gmap nat GpuMemoryReservation) : list DeallocCall :=
  flat_map (fun xr => owned (snd xr)) (map_to_list h).

(** The allocations answered for: those already given back and those
    still held. *)
Definition accounted (w : World) : list DeallocCall :=
  calls w ++ held (objs w).

(** The allocations that a sequence of operations hands to reservations:
    one for each construction with a resource that is not null. *)
Definition handed_by (o : op) : list DeallocCall :=
  match o with
  | Construct _ r dev _ p _ => if truthy r then [mkCall r dev p] else []
  | _ => []
  end.

Definition handed (ops : list op) : list DeallocCall :=
  flat_map handed_by ops.

(** [release()] called [n] times in a row on [x]. *)
Definition release_times (n : nat) (x : nat) : M unit :=
  run (replicate n (Release x)).

(** Two objects for examples: [0] holds an allocation of resource 1 on
    device 0, [1] is default-constructed. *)
Definition two_objects : World :=
  mkWorld (<[1 := empty_state]> (<[0 := mkReservation 1 0 7 100 8]> ∅)) [].

(** Two objects with a null resource: [0] is default-constructed, [1]
    was built from a null resource and otherwise arbitrary fields. *)
Definition empty_objects : World :=
  mkWorld (<[1 := mkReservation nullptr 5 7 9 3]> (<[0 := empty_state]> ∅)) [].

Definition aborting_ops : list op :=
  [ Construct 0 1 0 7 100 8; MoveAssign 0 0; Destroy 0 ].

Definition demo_ops : list op :=
  [ Construct 0 1 0 7 100 8;
    DefaultConstruct 1;
    MoveAssign 1 0;
    MoveConstruct 2 1;
    Construct 3 1 0 7 200 16;
    MoveAssign 2 3;
    Release 2;
    Release 2;
    Destroy 3; Destroy 2; Destroy 1; Destroy 0 ].

End Reservation.

(** ** The warp-level top-k selector *)

Module WarpSelect.

(** The one instantiation in the sources,
    [WARP_SELECT_IMPL(float, false, 1024, 8)]: element type (fixed to
    [float] there), direction flag, largest k the instantiation is used
    for, and number of candidates a thread keeps for itself.  Callers
    pick an instantiation whose [warp_q] covers their k; the selection
    below does not consult it. *)
Record Instantiation : Type := mkInstantiation {
  dir : bool;
  warp_q : nat;
  thread_q : nat
}.

Definition float_false_1024_8 : Instantiation := mkInstantiation false 1024 8.

(** A candidate: a score and its position in the row.  Scores stand for
    the totally ordered values of the element type and are kept as
    integers. *)
Definition Cand : Type := Z * nat.

(** The relation "holds" of a boolean comparison. *)
Definition holds {A : Type} (leb : A -> A -> bool) : relation A :=
  fun a b => leb a b = true.

(** [a] is reported no later than [b]: by score in the direction asked
    for ([true] for the largest scores, [false] for the smallest), equal
    scores by ascending position. *)
Definition precedes (largest : bool) (a b : Cand) : bool :=
  if (fst a =? fst b)%Z then snd a <=? snd b
  else if largest then (fst b <? fst a)%Z else (fst a <? fst b)%Z.

(** The order of the plain scores in a direction, for the reference
    sort. *)
Definition score_le (largest : bool) : relation Z :=
  fun a b => if largest then (b <= a)%Z else (a <= b)%Z.

#[global] Instance score_le_dec (largest : bool) : RelDecision (score_le largest).
Proof. intros a b. unfold score_le. destruct largest; apply _. Defined.

Section Bounded.
Context {A : Type} (leb : A -> A -> bool).

(** Insertion into an ordered structure, behind the entries that are
    reported no later. *)
Fixpoint insert (c : A) (q : list A) : list A :=
  match q with
  | [] => [c]
  | e :: q' => if leb e c then e :: insert c q' else c :: q
  end.

(** Merging a buffer into an ordered structure that holds up to [k]
    candidates. *)
Definition merge_into (k : nat) (q buf : list A) : list A :=
  take k (foldr insert q buf).

(** The first [k] of all candidates in order. *)
Definition topk (k : nat) (l : list A) : list A := merge_into k [] l.
End Bounded.

(** Consecutive pieces of [n] elements, the last one possibly shorter;
    a piece holds at least one element. *)
Fixpoint chunks_fuel {A : Type} (fuel n : nat) (l : list A) : list (list A) :=
  match fuel with
  | O => []
  | S fuel' =>
      match l with
      | [] => []
      | _ => take (S n) l :: chunks_fuel fuel' n (drop (S n) l)
      end
  end.

Definition chunks {A : Type} (n : nat) (l : list A) : list (list A) :=
  chunks_fuel (length l) (pred n) l.

Definition warp_size : nat := 32.

(** Modelled from the spec: the selection kernel itself (the macro
    WARP_SELECT_IMPL and the WarpSelect code it expands to) is not part
    of the sources at hand, which hold one instantiation only.  After
    section 4.5: a thread keeps a buffer of at most [thread_q] pairs of
    value and position; a candidate that cannot be in the final top k,
    given the current k-th best of the warp, is rejected at once. *)
Definition admits (largest : bool) (k : nat) (q : list Cand) (c : Cand) : bool :=
  if length q <? k then true
  else match last q with
       | Some kth => negb (precedes largest kth c)
       | None => false
       end.

(** Modelled from the spec: one step of the warp over the row, lane [i]
    looking at the [i]-th candidate of the step; lanes past the end of
    the row stay idle. *)
Fixpoint offer_all (largest : bool) (k : nat) (q : list Cand)
    (bufs : list (list Cand)) (cs : list Cand) : list (list Cand) :=
  match bufs, cs with
  | buf :: bufs', c :: cs' =>
      (if admits largest k q c then c :: buf else buf)
        :: offer_all largest k q bufs' cs'
  | _, _ => bufs
  end.

(** The buffers of the lanes of a warp and the structure of the warp,
    in order and holding up to k candidates. *)
Record WarpState : Type := mkWarpState {
  lanes : list (list Cand);
  warp_queue : list Cand
}.

(** Modelled from the spec: the buffers of all lanes are merged into the
    structure of the warp and emptied. *)
Definition flush (largest : bool) (k : nat) (st : WarpState) : WarpState :=
  mkWarpState (map (fun _ => []) (lanes st))
    (merge_into (precedes largest) k (warp_queue st) (concat (lanes st))).

(** Modelled from the spec: a step of the warp; the buffers are merged
    as soon as one of them is full. *)
Definition round (inst : Instantiation) (k : nat) (st : WarpState)
    (cs : list Cand) : WarpState :=
  let st' := mkWarpState (offer_all (dir inst) k (warp_queue st) (lanes st) cs)
                         (warp_queue st) in
  if existsb (fun buf => thread_q inst <=? length buf) (lanes st')
  then flush (dir inst) k st'
  else st'.

(** What holds of a warp that has seen the candidates [seen]: no lane is
    missing, the structure of the warp is in order and holds at most [k]
    candidates, and buffers and structure together still decide the
    first [k] of what was seen. *)
Definition warp_inv (largest : bool) (k : nat) (st : WarpState)
    (seen : list Cand) : Prop :=
  length (lanes st) = warp_size /\
  StronglySorted (holds (precedes largest)) (warp_queue st) /\
  length (warp_queue st) <= k /\
  topk (precedes largest) k (concat (lanes st) ++ warp_queue st)
  = topk (precedes largest) k seen.

Definition warp_start : WarpState := mkWarpState (replicate warp_size []) [].

(** Modelled from the spec: a warp strides across its slice of the row
    and merges what is left in the buffers at the end. *)
Definition warp_select (inst : Instantiation) (k : nat) (slice : list Cand) : list Cand :=
  warp_queue
    (flush (dir inst) k (fold_left (round inst k) (chunks warp_size slice) warp_start)).

(** The row with the position of each score. *)
Definition indexed (row : list Z) : list Cand := zip row (seq 0 (length row)).

(** The length of the slice of one warp, for [num_warps] warps and a row
    of [n] scores. *)
Definition slice_length (num_warps n : nat) : nat :=
  (n + (num_warps - 1)) / Nat.max 1 num_warps.

(** Modelled from the spec: the selection of a thread block of
    [num_warps] warps on one row; the structures of the warps are merged
    into one structure for the block, which is written out. *)
Definition block_select (inst : Instantiation) (num_warps k : nat)
    (row : list Z) : list Cand :=
  let slices := chunks (slice_length num_warps (length row)) (indexed row) in
  merge_into (precedes (dir inst)) k [] (concat (map (warp_select inst k) slices)).

(** The reference: the first k scores of the fully sorted row. *)
Definition reference_topk (largest : bool) (k : nat) (row : list Z) : list Z :=
  take k (merge_sort (score_le largest) row).

End WarpSelect.

(** ** Uses of reservations *)

Module Usage.
Import Reservation.

(** The virtual [GpuResources::allocMemory] of one instance.  Its
    implementations are outside this file; the pointer it returns may
    depend on everything that happened before.  Only calls that return
    are described: an implementation that throws builds no
    reservation. *)
Definition Allocator : Type := World -> AllocDesc.AllocRequest -> Z.

(** [GpuMemoryReservation GpuResources::allocMemoryHandle(const
    AllocRequest& req)], called on the instance at address [this]; the
    reservation it returns is built in the caller's variable [x]. *)
Definition allocMemoryHandle (allocMemory : Allocator) (this : Z) (x : nat)
    (req : AllocDesc.AllocRequest) : M unit :=
  fun w =>
    ctor x this (AllocDesc.device (AllocDesc.info req))
      (AllocDesc.stream (AllocDesc.info req)) (allocMemory w req)
      (AllocDesc.size req) w.

(** The three moves by which [std::swap(a, b)] exchanges two
    reservations, [T tmp(std::move(a)); a = std::move(b);
    b = std::move(tmp);], and the end of [tmp]. *)
Definition swap_by_moves (tmp a b : nat) : M unit :=
  move_ctor tmp a ;;;
  move_assign a b ;;;
  move_assign b tmp ;;;
  dtor tmp.

(** [d = GpuMemoryReservation();]: assignment from a default-constructed
    temporary [tmp], which ends with the statement. *)
Definition assign_default (tmp d : nat) : M unit :=
  default_ctor tmp ;;;
  move_assign d tmp ;;;
  dtor tmp.

(** A scope that obtains a handle from the instance at [this], releases
    it by hand before the end when [early_release] is set, and leaves:
    [{ auto h = res->allocMemoryHandle(req); ... h.release(); }]. *)
Definition handle_scope (allocMemory : Allocator) (this : Z) (x : nat)
    (req : AllocDesc.AllocRequest) (early_release : bool) : M unit :=
  allocMemoryHandle allocMemory this x req ;;;
  (if early_release then release x else ret tt) ;;;
  dtor x.

(** A resource at address 1 whose allocations all return address 4096. *)
Definition sample_allocator : Allocator := fun _ _ => 4096%Z.

Definition sample_request : AllocDesc.AllocRequest :=
  AllocDesc.mkAllocRequest
    (AllocDesc.mkAllocInfo AllocDesc.TemporaryMemoryBuffer 2 AllocDesc.Temporary 7)
    1048576.

End Usage.

(** * Facts about the allocation descriptors *)

Module AllocDescFacts.
Import AllocDesc.

Local Open Scope string_scope.

Lemma append_nil_l (s : string) : "" +:+ s = s.
Proof. reflexivity. Qed.

Lemma append_cons (a : Ascii.ascii) (s t : string) :
  String a s +:+ t = String a (s +:+ t).
Proof. reflexivity. Qed.

Lemma append_assoc (s t u : string) : (s +:+ t) +:+ u = s +:+ (t +:+ u).
Proof.
  induction s as [|a s IH]; [ done | ].
  rewrite !append_cons. by rewrite IH.
Qed.

Lemma append_nil_r (s : string) : s +:+ "" = s.
Proof.
  induction s as [|a s IH]; [ done | ].
  rewrite append_cons. by rewrite IH.
Qed.

Lemma occurs_in_here (t pre post : string) : occurs_in t (pre +:+ t +:+ post).
Proof. by exists pre, post. Qed.

Lemma occurs_in_append_l (t s u : string) :
  occurs_in t s -> occurs_in t (s +:+ u).
Proof.
  intros (pre & post & ->). exists pre, (post +:+ u).
  by rewrite !append_assoc.
Qed.

Lemma occurs_in_append_r (t s u : string) :
  occurs_in t s -> occurs_in t (u +:+ s).
Proof.
  intros (pre & post & ->). exists (u +:+ pre), post.
  by rewrite !append_assoc.
Qed.

Lemma occurs_in_last (t pre : string) : occurs_in t (pre +:+ t).
Proof. exists pre, "". by rewrite append_nil_r. Qed.

(** The text of an [AllocInfo], read from left to right. *)
Lemma AllocInfo_toString_eq (os : OStream) (a : AllocInfo) :
  AllocInfo_toString os a =
    "type " +:+ allocTypeToString (type a) +:+ " dev " +:+ put_int os (device a)
    +:+ " space " +:+ memorySpaceToString (space a) +:+ " stream "
    +:+ put_ptr os (stream a).
Proof.
  unfold AllocInfo_toString. rewrite append_nil_l. by rewrite !append_assoc.
Qed.

Lemma AllocRequest_toString_eq (os : OStream) (r : AllocRequest) :
  AllocRequest_toString os r =
    AllocInfo_toString os (info r) +:+ " size " +:+ put_size os (size r) +:+ " bytes".
Proof.
  unfold AllocRequest_toString. rewrite append_nil_l. by rewrite !append_assoc.
Qed.

(** C6: whatever tag, stream and memory space the caller passes, the
    descriptors built by makeDevAlloc, makeTempAlloc and makeSpaceAlloc
    carry the device that getCurrentDevice() reports (they have no device
    argument), the caller's tag and stream, and the space Device,
    Temporary and the one the caller names. *)
Theorem make_alloc_current_device (rt : CudaRuntime) (at_ : AllocType)
    (sp : MemorySpace) (st : Z) :
  makeDevAlloc rt at_ st = mkAllocInfo at_ (getCurrentDevice rt) Device st /\
  makeTempAlloc rt at_ st = mkAllocInfo at_ (getCurrentDevice rt) Temporary st /\
  makeSpaceAlloc rt at_ sp st = mkAllocInfo at_ (getCurrentDevice rt) sp st /\
  device (makeDevAlloc rt at_ st) = getCurrentDevice rt /\
  device (makeTempAlloc rt at_ st) = getCurrentDevice rt /\
  device (makeSpaceAlloc rt at_ sp st) = getCurrentDevice rt /\
  space (makeDevAlloc rt at_ st) = Device /\
  space (makeTempAlloc rt at_ st) = Temporary /\
  space (makeSpaceAlloc rt at_ sp st) = sp.
Proof. repeat split. Qed.

(** C7: the rendering of an AllocInfo contains the name of the allocation
    type, the device, the name of the memory space and the stream; the
    rendering of an AllocRequest is the rendering of its AllocInfo
    followed by the size in bytes, so it contains all five components;
    and two requests that agree on the five components render alike. *)
Theorem toString_complete (os : OStream) (r : AllocRequest) :
  (occurs_in (allocTypeToString (type (info r))) (AllocInfo_toString os (info r)) /\
   occurs_in (put_int os (device (info r))) (AllocInfo_toString os (info r)) /\
   occurs_in (memorySpaceToString (space (info r))) (AllocInfo_toString os (info r)) /\
   occurs_in (put_ptr os (stream (info r))) (AllocInfo_toString os (info r))) /\
  AllocRequest_toString os r =
    AllocInfo_toString os (info r) +:+ " size " +:+ put_size os (size r) +:+ " bytes" /\
  (occurs_in (allocTypeToString (type (info r))) (AllocRequest_toString os r) /\
   occurs_in (put_int os (device (info r))) (AllocRequest_toString os r) /\
   occurs_in (memorySpaceToString (space (info r))) (AllocRequest_toString os r) /\
   occurs_in (put_ptr os (stream (info r))) (AllocRequest_toString os r) /\
   occurs_in (put_size os (size r)) (AllocRequest_toString os r)) /\
  (forall r' : AllocRequest,
     type (info r') = type (info r) ->
     device (info r') = device (info r) ->
     space (info r') = space (info r) ->
     stream (info r') = stream (info r) ->
     size r' = size r ->
     AllocRequest_toString os r' = AllocRequest_toString os r).
Proof.
  assert (occurs_in (allocTypeToString (type (info r))) (AllocInfo_toString os (info r)) /\
          occurs_in (put_int os (device (info r))) (AllocInfo_toString os (info r)) /\
          occurs_in (memorySpaceToString (space (info r))) (AllocInfo_toString os (info r)) /\
          occurs_in (put_ptr os (stream (info r))) (AllocInfo_toString os (info r)))
    as Hinfo.
  { rewrite AllocInfo_toString_eq. split; [ | split; [ | split ] ].
    - apply occurs_in_here.
    - do 2 apply occurs_in_append_r. apply occurs_in_here.
    - do 4 apply occurs_in_append_r. apply occurs_in_here.
    - do 6 apply occurs_in_append_r. apply occurs_in_last. }
  split; [ exact Hinfo | ].
  split; [ apply AllocRequest_toString_eq | ].
  split.
  - rewrite AllocRequest_toString_eq.
    destruct Hinfo as (H1 & H2 & H3 & H4).
    split; [ by apply occurs_in_append_l | ].
    split; [ by apply occurs_in_append_l | ].
    split; [ by apply occurs_in_append_l | ].
    split; [ by apply occurs_in_append_l | ].
    apply occurs_in_append_r. apply occurs_in_here.
  - intros [[t' d' s' st'] sz']; destruct r as [[t d s st] sz]; simpl.
    by intros -> -> -> -> ->.
Qed.

Example toString_sample :
  AllocRequest_toString decimal_ostream
    (mkAllocRequest (mkAllocInfo TemporaryMemoryBuffer 2 Temporary 77) 1048576)
  = "type TemporaryMemoryBuffer dev 2 space Temporary stream 77 size 1048576 bytes".
Proof. by vm_compute. Qed.

(** C9: allocTypeToString and memorySpaceToString return a string that is
    not empty for every value of their enumeration, named or not; the
    values that are none of the named enumerators, and only they, are
    rendered as "Unknown". *)
Theorem enum_toString_total :
  (forall t : AllocType, allocTypeToString t <> "") /\
  (forall s : MemorySpace, memorySpaceToString s <> "") /\
  (forall t : AllocType,
     allocTypeToString t = "Unknown" <-> exists raw : Z, t = AllocTypeUnnamed raw) /\
  (forall s : MemorySpace,
     memorySpaceToString s = "Unknown" <-> exists raw : Z, s = MemorySpaceUnnamed raw).
Proof.
  split; [ by intros [] | ].
  split; [ by intros [] | ].
  split.
  - intros t. split.
    + destruct t; simpl; try discriminate. eauto.
    + by intros [raw ->].
  - intros s. split.
    + destruct s; simpl; try discriminate. eauto.
    + by intros [raw ->].
Qed.

End AllocDescFacts.

(** * Facts about the reservations *)

Module ReservationFacts.
Import Reservation.

Lemma record_eta (r : GpuMemoryReservation) :
  mkReservation (res r) (device r) (stream r) (data r) (size r) = r.
Proof. by destruct r. Qed.

Lemma truthy_false (p : Z) : truthy p = false <-> p = nullptr.
Proof.
  unfold truthy, nullptr. destruct (Z.eqb_spec p 0); simpl; split; intros; congruence.
Qed.

Lemma truthy_true (p : Z) : truthy p = true <-> p <> nullptr.
Proof.
  unfold truthy, nullptr. destruct (Z.eqb_spec p 0); simpl; split; intros; congruence.
Qed.

Lemma same_live_allocation_iff (d s : GpuMemoryReservation) :
  same_live_allocation d s = true <->
  res d <> nullptr /\ res d = res s /\ device d = device s /\ data d = data s.
Proof.
  unfold same_live_allocation.
  rewrite !andb_true_iff, truthy_true, !Z.eqb_eq. tauto.
Qed.

Lemma same_live_allocation_self (r : GpuMemoryReservation) :
  same_live_allocation r r = truthy (res r).
Proof.
  unfold same_live_allocation. rewrite !Z.eqb_refl. by destruct (truthy (res r)).
Qed.

(** Unfolding of the monad on a world whose lookups are known. *)
Ltac step_monad :=
  unfold bind, load, store, declare, dispose, deallocMemory, FAISS_ASSERT, ret;
  simpl;
  repeat first
    [ rewrite lookup_insert_eq
    | rewrite lookup_insert_ne by done
    | match goal with H : objs _ !! _ = _ |- _ => rewrite H end ];
  simpl.

(** *** Whole-object descriptions of the member functions *)

Lemma release_spec (x : nat) (w : World) (r : GpuMemoryReservation) :
  objs w !! x = Some r ->
  release x w =
    Ok tt (if truthy (res r)
           then mkWorld (<[x := empty_state]> (objs w))
                        (calls w ++ [mkCall (res r) (device r) (data r)])
           else w).
Proof.
  intros Hx. unfold release. step_monad.
  destruct (truthy (res r)); [ | done ].
  repeat step_monad. unfold set_res, set_device, set_stream, set_data, set_size; simpl.
  rewrite !insert_insert_eq. done.
Qed.

Lemma take_fields_spec (this m : nat) (w : World) (a s : GpuMemoryReservation) :
  this <> m ->
  objs w !! this = Some a ->
  objs w !! m = Some s ->
  take_fields this m w =
    Ok tt (mkWorld (<[m := empty_state]> (<[this := s]> (objs w))) (calls w)).
Proof.
  intros Hne Ha Hs. unfold take_fields.
  assert (m <> this) by congruence.
  repeat step_monad.
  unfold set_res, set_device, set_stream, set_data, set_size, empty_state; simpl.
  f_equal. f_equal. apply map_eq. intros i.
  destruct (decide (i = m)) as [->|Him].
  { by rewrite !lookup_insert_eq. }
  destruct (decide (i = this)) as [->|Hit].
  { rewrite !lookup_insert_ne, !lookup_insert_eq by done.
    rewrite lookup_insert_ne, lookup_insert_eq by done. by rewrite record_eta. }
  rewrite !lookup_insert_ne by done. done.
Qed.

(** The same ten assignments when both names denote one object. *)
Lemma take_fields_self (x : nat) (w : World) (s : GpuMemoryReservation) :
  objs w !! x = Some s ->
  take_fields x x w = Ok tt (mkWorld (<[x := empty_state]> (objs w)) (calls w)).
Proof.
  intros Hs. unfold take_fields.
  repeat step_monad.
  unfold set_res, set_device, set_stream, set_data, set_size, empty_state; simpl.
  by rewrite !insert_insert_eq.
Qed.

Lemma move_ctor_from_spec (junk : GpuMemoryReservation) (this m : nat) (w : World)
    (s : GpuMemoryReservation) :
  objs w !! this = None ->
  objs w !! m = Some s ->
  move_ctor_from junk this m w =
    Ok tt (mkWorld (<[m := empty_state]> (<[this := s]> (objs w))) (calls w)).
Proof.
  intros Hthis Hm. unfold move_ctor_from.
  assert (this <> m) as Hne by (intros ->; congruence).
  step_monad.
  rewrite (take_fields_spec this m _ junk s Hne); simpl.
  - by rewrite insert_insert_eq.
  - by rewrite lookup_insert_eq.
  - by rewrite lookup_insert_ne.
Qed.

Lemma dtor_spec (x : nat) (w : World) (r : GpuMemoryReservation) :
  objs w !! x = Some r ->
  dtor x w = Ok tt (mkWorld (delete x (objs w)) (calls w ++ owned r)).
Proof.
  intros Hx. unfold dtor, owned. step_monad.
  destruct (truthy (res r)); repeat step_monad; [ done | ].
  by rewrite app_nil_r.
Qed.

Lemma move_assign_spec (d m : nat) (w : World) (rd rs : GpuMemoryReservation) :
  objs w !! d = Some rd ->
  objs w !! m = Some rs ->
  move_assign d m w =
    if same_live_allocation rd rs then Fatal w
    else Ok tt (mkWorld (<[m := empty_state]> (<[d := rs]> (objs w)))
                        (calls w ++ owned rd)).
Proof.
  intros Hd Hm. unfold move_assign. step_monad.
  destruct (same_live_allocation rd rs) eqn:Hsame; simpl; [ done | ].
  rewrite (release_spec d w rd Hd).
  destruct (decide (d = m)) as [->|Hne].
  - assert (rs = rd) as -> by congruence.
    rewrite same_live_allocation_self in Hsame. unfold owned. rewrite Hsame.
    rewrite (take_fields_self m w rd Hm). by rewrite app_nil_r, insert_insert_eq.
  - unfold owned. destruct (truthy (res rd)).
    + rewrite (take_fields_spec d m _ empty_state rs Hne); simpl.
      * by rewrite insert_insert_eq.
      * by rewrite lookup_insert_eq.
      * by rewrite lookup_insert_ne.
    + rewrite (take_fields_spec d m w rd rs Hne Hd Hm). by rewrite app_nil_r.
Qed.

(** *** Who answers for which allocation *)

Lemma held_empty : held ∅ = [].
Proof. unfold held. by rewrite map_to_list_empty. Qed.

Lemma held_insert_fresh (h : gmap nat GpuMemoryReservation) (x : nat)
    (r : GpuMemoryReservation) :
  h !! x = None -> held (<[x := r]> h) ≡ₚ owned r ++ held h.
Proof.
  intros Hx. unfold held.
  rewrite (Permutation_flat_map _ (map_to_list_insert h x r Hx)). done.
Qed.

Lemma held_lookup (h : gmap nat GpuMemoryReservation) (x : nat)
    (r : GpuMemoryReservation) :
  h !! x = Some r -> held h ≡ₚ owned r ++ held (delete x h).
Proof.
  intros Hx. unfold held.
  rewrite <- (Permutation_flat_map _ (map_to_list_delete h x r Hx)). done.
Qed.

Lemma held_insert (h : gmap nat GpuMemoryReservation) (x : nat)
    (r : GpuMemoryReservation) :
  held (<[x := r]> h) ≡ₚ owned r ++ held (delete x h).
Proof.
  rewrite <- (insert_delete_eq h x r).
  apply held_insert_fresh, lookup_delete_eq.
Qed.

Lemma owned_empty_state : owned empty_state = [].
Proof. done. Qed.

Lemma exec_accounted (o : op) (w w' : World) :
  exec o w = Ok tt w' -> accounted w' ≡ₚ accounted w ++ handed_by o.
Proof.
  unfold accounted.
  destruct o as [x | x r dev str p sz | x m | d m | x | x]; simpl.
  - unfold default_ctor, declare.
    destruct (objs w !! x) eqn:Hx; [ done | ]. intros [= <-]; simpl.
    rewrite held_insert_fresh by done. by rewrite app_nil_r.
  - unfold ctor, declare.
    destruct (objs w !! x) eqn:Hx; [ done | ]. intros [= <-]; simpl.
    rewrite held_insert_fresh by done. unfold owned; simpl.
    destruct (truthy r); simpl; [ | by rewrite app_nil_r ].
    rewrite <- app_assoc. apply Permutation_app_head.
    apply Permutation_cons_append.
  - destruct (objs w !! m) as [s|] eqn:Hm;
      [ | unfold move_ctor, move_ctor_from; by step_monad ].
    destruct (objs w !! x) as [a|] eqn:Hx;
      [ unfold move_ctor, move_ctor_from; by step_monad | ].
    unfold move_ctor. rewrite (move_ctor_from_spec _ x m w s Hx Hm).
    intros [= <-]; simpl. rewrite app_nil_r.
    assert (x <> m) as Hne by (intros ->; congruence).
    rewrite held_insert, owned_empty_state; simpl.
    rewrite delete_insert_ne by done.
    rewrite held_insert_fresh by (by rewrite lookup_delete_ne).
    by rewrite <- held_lookup.
  - destruct (objs w !! d) as [rd|] eqn:Hd;
      [ | unfold move_assign; by step_monad ].
    destruct (objs w !! m) as [rs|] eqn:Hm;
      [ | unfold move_assign; by step_monad ].
    rewrite (move_assign_spec d m w rd rs Hd Hm).
    destruct (same_live_allocation rd rs) eqn:Hsame; [ done | ].
    intros [= <-]; simpl. rewrite app_nil_r.
    rewrite held_insert, owned_empty_state; simpl.
    rewrite <- app_assoc. apply Permutation_app_head.
    destruct (decide (d = m)) as [->|Hne].
    + assert (rs = rd) as -> by congruence.
      rewrite delete_insert_eq. by rewrite <- held_lookup.
    + rewrite delete_insert_ne by done.
      rewrite held_insert.
      rewrite (held_lookup (objs w) d rd Hd).
      apply Permutation_app_head.
      rewrite (held_lookup (delete d (objs w)) m rs) by (by rewrite lookup_delete_ne).
      by rewrite delete_delete.
  - destruct (objs w !! x) as [r|] eqn:Hx;
      [ | unfold release; by step_monad ].
    rewrite (release_spec x w r Hx).
    intros [= <-]. rewrite app_nil_r.
    pose proof (held_lookup (objs w) x r Hx) as Hh. unfold owned in Hh.
    destruct (truthy (res r)); simpl in *; [ | done ].
    rewrite held_insert, owned_empty_state, Hh; simpl.
    by rewrite <- app_assoc.
  - destruct (objs w !! x) as [r|] eqn:Hx;
      [ | unfold dtor; by step_monad ].
    rewrite (dtor_spec x w r Hx).
    intros [= <-]; simpl. rewrite app_nil_r.
    rewrite (held_lookup (objs w) x r Hx). by rewrite <- app_assoc.
Qed.

Lemma run_accounted (ops : list op) (w w' : World) :
  run ops w = Ok tt w' -> accounted w' ≡ₚ accounted w ++ handed ops.
Proof.
  revert w. induction ops as [|o rest IH]; intros w; simpl.
  - intros [= <-]. by rewrite app_nil_r.
  - unfold bind. destruct (exec o w) as [[] w1| |] eqn:Ho; [ | done | done ].
    intros Hrest. rewrite (IH _ Hrest), (exec_accounted _ _ _ Ho).
    unfold handed; simpl. by rewrite <- app_assoc.
Qed.

(** [FAISS_ASSERT] is evaluated before the move assignment changes
    anything, and no other operation can fail it. *)
Lemma exec_fatal (o : op) (w w' : World) :
  exec o w = Fatal w' ->
  w' = w /\ exists d m, o = MoveAssign d m.
Proof.
  destruct o as [x | x r dev str p sz | x m | d m | x | x]; simpl.
  - unfold default_ctor, declare. by destruct (objs w !! x).
  - unfold ctor, declare. by destruct (objs w !! x).
  - destruct (objs w !! m) as [s|] eqn:Hm;
      [ | unfold move_ctor, move_ctor_from; by step_monad ].
    destruct (objs w !! x) as [a|] eqn:Hx;
      [ unfold move_ctor, move_ctor_from; by step_monad | ].
    unfold move_ctor. by rewrite (move_ctor_from_spec _ x m w s Hx Hm).
  - destruct (objs w !! d) as [rd|] eqn:Hd;
      [ | unfold move_assign; by step_monad ].
    destruct (objs w !! m) as [rs|] eqn:Hm;
      [ | unfold move_assign; by step_monad ].
    rewrite (move_assign_spec d m w rd rs Hd Hm).
    destruct (same_live_allocation rd rs); [ | done ].
    intros [= <-]. eauto.
  - destruct (objs w !! x) as [r|] eqn:Hx;
      [ by rewrite (release_spec x w r Hx) | unfold release; by step_monad ].
  - destruct (objs w !! x) as [r|] eqn:Hx;
      [ by rewrite (dtor_spec x w r Hx) | unfold dtor; by step_monad ].
Qed.

(** A run stopped by the assertion ends in the world that the
    operations before the failing move assignment built. *)
Lemma run_fatal_prefix (ops : list op) (w w' : World) :
  run ops w = Fatal w' ->
  exists pre d m rest,
    ops = pre ++ MoveAssign d m :: rest /\ run pre w = Ok tt w' /\
    move_assign d m w' = Fatal w'.
Proof.
  revert w. induction ops as [|o rest IH]; intros w; simpl; [ done | ].
  unfold bind. destruct (exec o w) as [[] w1| w1 |] eqn:Ho; [ | | done ].
  - intros Hrest. destruct (IH _ Hrest) as (pre & d & m & rest' & -> & Hpre & Hf).
    exists (o :: pre), d, m, rest'. simpl. unfold bind. by rewrite Ho.
  - intros [= <-]. destruct (exec_fatal _ _ _ Ho) as [-> (d & m & ->)].
    exists [], d, m, rest. done.
Qed.

(** *** The claims about reservations *)

(** C1 (amended): for every finite sequence of constructions, move
    constructions, move assignments, releases and destructions that runs
    without failing the ownership assertion, the calls of deallocMemory
    made so far together with the allocations still held by live
    reservations are, as a multiset, exactly the allocations handed to
    reservations with a resource that is not null, each call being made
    on the owning resource with the device and data pointer of the
    reservation.  So once every reservation has been destroyed each
    handed allocation has caused exactly one call, never none and never
    two. *)
Theorem reservation_safety (ops : list op) (w : World) :
  run ops init = Ok tt w ->
  calls w ++ held (objs w) ≡ₚ handed ops /\
  (objs w = ∅ -> calls w ≡ₚ handed ops).
Proof.
  intros Hrun. pose proof (run_accounted ops init w Hrun) as Hacc.
  unfold accounted in Hacc. simpl in Hacc. rewrite held_empty in Hacc.
  split; [ done | ].
  intros Hempty. rewrite Hempty, held_empty, app_nil_r in Hacc. done.
Qed.

Lemma reservation_safety_witness :
  run demo_ops init = Ok tt (mkWorld ∅ [mkCall 1 0 100; mkCall 1 0 200]) /\
  [mkCall 1 0 100; mkCall 1 0 200] ≡ₚ handed demo_ops.
Proof.
  assert (run demo_ops init = Ok tt (mkWorld ∅ [mkCall 1 0 100; mkCall 1 0 200]))
    as Hrun by (vm_compute; reflexivity).
  split; [ exact Hrun | ].
  exact (proj2 (reservation_safety demo_ops _ Hrun) eq_refl).
Defined.

(** C1 as stated fails: a reservation is handed the allocation
    (resource 1, device 0, pointer 100) and is then move-assigned onto
    itself; the assertion stops the process, the destructor never runs
    and deallocMemory has not been called at all. *)
Lemma reservation_safety_fails_on_assertion :
  exists w : World,
    run aborting_ops init = Fatal w /\
    handed aborting_ops = [mkCall 1 0 100] /\
    objs w !! 0 = Some (mkReservation 1 0 7 100 8) /\
    calls w = [] /\
    ~ calls w ≡ₚ handed aborting_ops.
Proof.
  eexists. split; [ vm_compute; reflexivity | ].
  split; [ by vm_compute | ]. split; [ by vm_compute | ]. split; [ done | ].
  simpl. intros Hperm. by apply Permutation_nil in Hperm.
Qed.

(** C2: in the move assignment d = std::move(s), when d holds a resource
    that is not null and d and s agree on resource, device and data
    pointer, the assertion is fatal and nothing has changed.  Otherwise
    the assignment returns, deallocMemory has been called once on d's old
    resource with d's old device and data pointer if d was not empty and
    not at all if it was, s is left in the empty state and d holds the
    five fields s had (when d and s are one object, which passes the
    assertion only if it is empty, that object is left in the empty
    state); no other object changes. *)
Theorem move_assign_contract (d s : nat) (w : World) (rd rs : GpuMemoryReservation) :
  objs w !! d = Some rd ->
  objs w !! s = Some rs ->
  (res rd <> nullptr /\ res rd = res rs /\ device rd = device rs /\ data rd = data rs ->
     move_assign d s w = Fatal w) /\
  (~ (res rd <> nullptr /\ res rd = res rs /\ device rd = device rs /\ data rd = data rs) ->
     exists w' : World,
       move_assign d s w = Ok tt w' /\
       calls w' = calls w ++
         (if decide (res rd = nullptr) then []
          else [mkCall (res rd) (device rd) (data rd)]) /\
       objs w' !! s = Some empty_state /\
       (d <> s -> objs w' !! d = Some rs) /\
       (forall x : nat, x <> d -> x <> s -> objs w' !! x = objs w !! x)).
Proof.
  intros Hd Hs. rewrite (move_assign_spec d s w rd rs Hd Hs).
  split; intros Hcond.
  - apply same_live_allocation_iff in Hcond. by rewrite Hcond.
  - rewrite <- same_live_allocation_iff in Hcond.
    apply not_true_is_false in Hcond. rewrite Hcond.
    eexists. split; [ reflexivity | ]. simpl.
    split; [ | split; [ | split ] ].
    + f_equal. unfold owned. case_decide as Hres.
      * apply truthy_false in Hres. by rewrite Hres.
      * apply truthy_true in Hres. by rewrite Hres.
    + by rewrite lookup_insert_eq.
    + intros Hne. rewrite lookup_insert_ne by done. by rewrite lookup_insert_eq.
    + intros x Hxd Hxs. by rewrite !lookup_insert_ne by done.
Qed.

Lemma move_assign_contract_witness :
  exists w' : World,
    move_assign 1 0 two_objects = Ok tt w' /\
    calls w' = [] /\
    objs w' !! 0 = Some empty_state /\
    objs w' !! 1 = Some (mkReservation 1 0 7 100 8).
Proof.
  destruct (move_assign_contract 1 0 two_objects empty_state
              (mkReservation 1 0 7 100 8) eq_refl eq_refl) as [_ Hpass].
  destruct Hpass as (w' & Hrun & Hcalls & Hs & Hd & _).
  { simpl. intros [Hres _]. by apply Hres. }
  exists w'. split; [ exact Hrun | ]. split; [ exact Hcalls | ].
  split; [ exact Hs | ]. apply Hd. lia.
Defined.

(** C3: move construction from m builds a reservation that holds the
    resource, device, stream, data pointer and size m had, leaves m in
    the empty state (null resource, device 0, null stream, null data
    pointer, size 0), calls deallocMemory not at all and changes no other
    object; what the storage of the new object held before is
    irrelevant. *)
Theorem move_ctor_contract (this m : nat) (w : World) (s : GpuMemoryReservation) :
  objs w !! this = None ->
  objs w !! m = Some s ->
  exists w' : World,
    move_ctor this m w = Ok tt w' /\
    objs w' !! this = Some s /\
    objs w' !! m = Some (mkReservation nullptr 0 nullptr nullptr 0) /\
    calls w' = calls w /\
    (forall x : nat, x <> this -> x <> m -> objs w' !! x = objs w !! x) /\
    (forall junk : GpuMemoryReservation, move_ctor_from junk this m w = Ok tt w').
Proof.
  intros Hthis Hm.
  assert (this <> m) as Hne by (intros ->; congruence).
  unfold move_ctor. rewrite (move_ctor_from_spec _ this m w s Hthis Hm).
  eexists. split; [ reflexivity | ]. simpl.
  split; [ | split; [ | split; [ | split ] ] ].
  - rewrite lookup_insert_ne by done. by rewrite lookup_insert_eq.
  - by rewrite lookup_insert_eq.
  - done.
  - intros x Hx1 Hx2. by rewrite !lookup_insert_ne by done.
  - intros junk. by rewrite (move_ctor_from_spec junk this m w s Hthis Hm).
Qed.

Lemma move_ctor_contract_witness :
  exists w' : World,
    move_ctor 2 0 two_objects = Ok tt w' /\
    objs w' !! 2 = Some (mkReservation 1 0 7 100 8) /\
    objs w' !! 0 = Some empty_state /\
    calls w' = [].
Proof.
  destruct (move_ctor_contract 2 0 two_objects (mkReservation 1 0 7 100 8)
              eq_refl eq_refl) as (w' & Hrun & Hnew & Hold & Hcalls & _).
  exists w'. split; [ exact Hrun | ]. split; [ exact Hnew | ].
  split; [ exact Hold | exact Hcalls ].
Defined.

Lemma release_times_fixed (n x : nat) (w : World) (r : GpuMemoryReservation) :
  objs w !! x = Some r -> res r = nullptr -> release_times n x w = Ok tt w.
Proof.
  intros Hx Hres. unfold release_times.
  induction n as [|n IH]; simpl; [ done | ].
  unfold bind. rewrite (release_spec x w r Hx).
  apply truthy_false in Hres. by rewrite Hres.
Qed.

(** C4: release() on a reservation that holds a resource calls
    deallocMemory exactly once, on that resource with the reservation's
    device and data pointer, and resets the reservation to the empty
    state; on a reservation whose resource is null it calls nothing and
    changes nothing.  In both cases any number of further calls of
    release() returns and leaves the world as the first call left it. *)
Theorem release_contract (x : nat) (w : World) (r : GpuMemoryReservation) :
  objs w !! x = Some r ->
  (res r <> nullptr ->
     release x w =
       Ok tt (mkWorld (<[x := empty_state]> (objs w))
                      (calls w ++ [mkCall (res r) (device r) (data r)]))) /\
  (res r = nullptr -> release x w = Ok tt w) /\
  (exists w1 : World,
     release x w = Ok tt w1 /\
     forall n : nat, release_times n x w1 = Ok tt w1).
Proof.
  intros Hx. rewrite (release_spec x w r Hx).
  split; [ | split ].
  - intros Hres. apply truthy_true in Hres. by rewrite Hres.
  - intros Hres. apply truthy_false in Hres. by rewrite Hres.
  - eexists. split; [ reflexivity | ]. intros n.
    destruct (truthy (res r)) eqn:Hres.
    + apply (release_times_fixed n x _ empty_state); [ | done ].
      simpl. by rewrite lookup_insert_eq.
    + apply truthy_false in Hres. by apply (release_times_fixed n x w r).
Qed.

Lemma release_contract_witness :
  release 0 two_objects =
    Ok tt (mkWorld (<[0 := empty_state]> (objs two_objects)) [mkCall 1 0 100]) /\
  release 1 two_objects = Ok tt two_objects.
Proof.
  split.
  - apply (proj1 (release_contract 0 two_objects (mkReservation 1 0 7 100 8) eq_refl)).
    discriminate.
  - apply (proj1 (proj2 (release_contract 1 two_objects empty_state eq_refl))).
    reflexivity.
Defined.

(** C5: when d and s both have a null resource, the move assignment
    d = std::move(s) passes the assertion and returns, deallocMemory is
    not called, s is left in the empty state and d, which takes the
    fields of s, has a null resource as well. *)
Theorem move_assign_empty (d s : nat) (w : World) (rd rs : GpuMemoryReservation) :
  objs w !! d = Some rd ->
  objs w !! s = Some rs ->
  res rd = nullptr ->
  res rs = nullptr ->
  exists (w' : World) (rd' : GpuMemoryReservation),
    move_assign d s w = Ok tt w' /\
    calls w' = calls w /\
    objs w' !! s = Some empty_state /\
    objs w' !! d = Some rd' /\ res rd' = nullptr.
Proof.
  intros Hd Hs Hrd Hrs. rewrite (move_assign_spec d s w rd rs Hd Hs).
  assert (truthy (res rd) = false) as Hfalse by by apply truthy_false.
  unfold same_live_allocation, owned. rewrite Hfalse; simpl.
  destruct (decide (d = s)) as [->|Hne].
  - exists (mkWorld (<[s := empty_state]> (<[s := rs]> (objs w))) (calls w ++ [])),
      empty_state.
    split; [ done | ]. simpl. rewrite app_nil_r, lookup_insert_eq. done.
  - exists (mkWorld (<[s := empty_state]> (<[d := rs]> (objs w))) (calls w ++ [])), rs.
    split; [ done | ]. simpl. rewrite app_nil_r, lookup_insert_eq.
    rewrite lookup_insert_ne by done. by rewrite lookup_insert_eq.
Qed.

Lemma move_assign_empty_witness :
  exists (w' : World) (rd' : GpuMemoryReservation),
    move_assign 0 1 empty_objects = Ok tt w' /\
    calls w' = calls empty_objects /\
    objs w' !! 1 = Some empty_state /\
    objs w' !! 0 = Some rd' /\ res rd' = nullptr.
Proof.
  exact (move_assign_empty 0 1 empty_objects empty_state
           (mkReservation nullptr 5 7 9 3) eq_refl eq_refl eq_refl eq_refl).
Defined.

(** C10: a reservation move-assigned onto itself fails the ownership
    assertion, fatally and with nothing changed, exactly when its
    resource is not null; exactly when its resource is null the
    assignment returns. *)
Theorem self_move_assign (x : nat) (w : World) (r : GpuMemoryReservation) :
  objs w !! x = Some r ->
  (res r <> nullptr -> move_assign x x w = Fatal w) /\
  (move_assign x x w = Fatal w -> res r <> nullptr) /\
  ((exists w' : World, move_assign x x w = Ok tt w') <-> res r = nullptr).
Proof.
  intros Hx. rewrite (move_assign_spec x x w r r Hx Hx).
  rewrite same_live_allocation_self.
  destruct (truthy (res r)) eqn:Hres.
  - apply truthy_true in Hres.
    split; [ done | ]. split; [ done | ].
    split; [ by intros [w' ?] | done ].
  - apply truthy_false in Hres.
    split; [ done | ]. split; [ done | ].
    split; [ done | eauto ].
Qed.

Lemma self_move_assign_witness :
  move_assign 0 0 two_objects = Fatal two_objects /\
  exists w' : World, move_assign 1 1 two_objects = Ok tt w'.
Proof.
  split.
  - apply (proj1 (self_move_assign 0 two_objects (mkReservation 1 0 7 100 8) eq_refl)).
    discriminate.
  - apply (proj2 (proj2 (self_move_assign 1 two_objects empty_state eq_refl))).
    reflexivity.
Defined.

End ReservationFacts.

(** * Facts about the selector *)

Module WarpSelectFacts.
Import WarpSelect.

(** *** Bounded ordered structures, for any total order *)

Section Order.
Context {A : Type} (leb : A -> A -> bool).
Hypothesis leb_total : forall a b : A, leb a b = true \/ leb b a = true.
Hypothesis leb_trans :
  forall a b c : A, leb a b = true -> leb b c = true -> leb a c = true.
Hypothesis leb_antisym : forall a b : A, leb a b = true -> leb b a = true -> a = b.

Lemma leb_refl (a : A) : leb a a = true.
Proof. by destruct (leb_total a a). Qed.

Lemma insert_Permutation (c : A) (q : list A) : insert leb c q ≡ₚ c :: q.
Proof.
  induction q as [|e q IH]; simpl; [ done | ].
  destruct (leb e c); [ | done ].
  rewrite IH. apply perm_swap.
Qed.

Lemma insert_StronglySorted (c : A) (q : list A) :
  StronglySorted (holds leb) q -> StronglySorted (holds leb) (insert leb c q).
Proof.
  induction 1 as [|e q Hq IH Hall]; simpl.
  - repeat constructor.
  - destruct (leb e c) eqn:Hec.
    + constructor; [ done | ].
      rewrite insert_Permutation. by constructor.
    + destruct (leb_total e c) as [?|Hce]; [ congruence | ].
      constructor; [ by constructor | ].
      constructor; [ done | ].
      eapply Forall_impl; [ exact Hall | ].
      intros x Hx. by eapply leb_trans.
Qed.

Lemma foldr_insert_Permutation (q buf : list A) :
  foldr (insert leb) q buf ≡ₚ buf ++ q.
Proof.
  induction buf as [|c buf IH]; simpl; [ done | ].
  by rewrite insert_Permutation, IH.
Qed.

Lemma foldr_insert_StronglySorted (q buf : list A) :
  StronglySorted (holds leb) q ->
  StronglySorted (holds leb) (foldr (insert leb) q buf).
Proof.
  intros Hq. induction buf as [|c buf IH]; simpl; [ done | ].
  by apply insert_StronglySorted.
Qed.

Lemma sorted_unique (l1 l2 : list A) :
  StronglySorted (holds leb) l1 -> StronglySorted (holds leb) l2 ->
  l1 ≡ₚ l2 -> l1 = l2.
Proof.
  assert (AntiSymm (=) (holds leb)) by (intros a b; apply leb_antisym).
  by apply StronglySorted_unique.
Qed.

Lemma StronglySorted_take (k : nat) (l : list A) :
  StronglySorted (holds leb) l -> StronglySorted (holds leb) (take k l).
Proof.
  intros Hl. revert k. induction Hl as [|e l Hl IH Hall]; intros [|k]; simpl;
    try constructor; [ apply IH | by apply Forall_take ].
Qed.

(** What lies beyond the first [k] entries has no influence on the
    first [k] entries after an insertion. *)
Lemma take_insert (k : nat) (c : A) (q : list A) :
  take k (insert leb c (take k q)) = take k (insert leb c q).
Proof.
  revert k. induction q as [|e q IH]; intros [|k]; simpl; try done.
  destruct (leb e c); simpl.
  - by rewrite IH.
  - f_equal. destruct k as [|k]; simpl; [ done | ].
    by rewrite take_take, Nat.min_l by lia.
Qed.

Lemma merge_into_absorb (k : nat) (q buf : list A) :
  merge_into leb k (take k q) buf = merge_into leb k q buf.
Proof.
  unfold merge_into. induction buf as [|c buf IH]; simpl.
  - by rewrite take_take, Nat.min_id.
  - by rewrite <- take_insert, IH, take_insert.
Qed.

Lemma topk_Permutation (k : nat) (l1 l2 : list A) :
  l1 ≡ₚ l2 -> topk leb k l1 = topk leb k l2.
Proof.
  intros Hl. unfold topk, merge_into. f_equal.
  apply sorted_unique; try (apply foldr_insert_StronglySorted; constructor).
  by rewrite !foldr_insert_Permutation, Hl.
Qed.

Lemma merge_into_topk (k : nat) (q buf : list A) :
  StronglySorted (holds leb) q ->
  merge_into leb k q buf = topk leb k (buf ++ q).
Proof.
  intros Hq. unfold topk, merge_into. f_equal.
  apply sorted_unique; try (apply foldr_insert_StronglySorted; by try constructor).
  by rewrite !foldr_insert_Permutation, app_nil_r.
Qed.

Lemma topk_StronglySorted (k : nat) (l : list A) :
  StronglySorted (holds leb) (topk leb k l).
Proof.
  apply StronglySorted_take, foldr_insert_StronglySorted. constructor.
Qed.

Lemma topk_length (k : nat) (l : list A) :
  length (topk leb k l) = Nat.min k (length l).
Proof.
  unfold topk, merge_into.
  by rewrite length_take, foldr_insert_Permutation, app_nil_r.
Qed.

Lemma topk_all (k : nat) (l : list A) : length l <= k -> topk leb k l ≡ₚ l.
Proof.
  intros Hk. unfold topk, merge_into. rewrite take_ge.
  - by rewrite foldr_insert_Permutation, app_nil_r.
  - by rewrite foldr_insert_Permutation, app_nil_r.
Qed.

Lemma topk_elem_of (k : nat) (l : list A) (x : A) : x ∈ topk leb k l -> x ∈ l.
Proof.
  unfold topk, merge_into. intros Hx.
  apply (subseteq_take k) in Hx.
  by rewrite foldr_insert_Permutation, app_nil_r in Hx.
Qed.

Lemma topk_cons_congr (k : nat) (c : A) (l1 l2 : list A) :
  topk leb k l1 = topk leb k l2 -> topk leb k (c :: l1) = topk leb k (c :: l2).
Proof.
  unfold topk, merge_into. simpl. intros Hl.
  by rewrite <- take_insert, Hl, take_insert.
Qed.

Lemma topk_app_congr (k : nat) (l l1 l2 : list A) :
  topk leb k l1 = topk leb k l2 -> topk leb k (l ++ l1) = topk leb k (l ++ l2).
Proof.
  intros Hl. induction l as [|c l IH]; simpl; [ done | ].
  by apply topk_cons_congr.
Qed.

Lemma topk_sorted_short (k : nat) (l : list A) :
  StronglySorted (holds leb) l -> length l <= k -> topk leb k l = l.
Proof.
  intros Hl Hk. unfold topk, merge_into.
  rewrite take_ge by (by rewrite foldr_insert_Permutation, app_nil_r).
  apply sorted_unique; [ apply foldr_insert_StronglySorted; constructor | done | ].
  by rewrite foldr_insert_Permutation, app_nil_r.
Qed.

Lemma topk_idemp (k : nat) (l : list A) : topk leb k (topk leb k l) = topk leb k l.
Proof.
  apply topk_sorted_short; [ apply topk_StronglySorted | ].
  rewrite topk_length. lia.
Qed.

Lemma topk_absorb_r (k : nat) (l1 l2 : list A) :
  topk leb k (l1 ++ topk leb k l2) = topk leb k (l1 ++ l2).
Proof. apply topk_app_congr, topk_idemp. Qed.

Lemma topk_absorb_l (k : nat) (l1 l2 : list A) :
  topk leb k (topk leb k l1 ++ l2) = topk leb k (l1 ++ l2).
Proof.
  rewrite (topk_Permutation k (topk leb k l1 ++ l2) (l2 ++ topk leb k l1))
    by apply Permutation_app_comm.
  rewrite topk_absorb_r. apply topk_Permutation, Permutation_app_comm.
Qed.

(** The first [k] entries of each piece decide the first [k] entries of
    the whole. *)
Lemma topk_concat (k : nat) (ls : list (list A)) :
  topk leb k (concat (map (topk leb k) ls)) = topk leb k (concat ls).
Proof.
  induction ls as [|l ls IH]; simpl; [ done | ].
  rewrite topk_absorb_l. by apply topk_app_congr.
Qed.

Lemma length_filter_Forall (P : A -> Prop) `{!forall x, Decision (P x)} (l : list A) :
  Forall P l -> length (filter P l) = length l.
Proof.
  induction 1 as [|x l Hx Hl IH]; [ done | ].
  rewrite filter_cons_True by done. simpl. by rewrite IH.
Qed.

(** A candidate behind [k] entries of an ordered structure does not
    change its first [k] entries. *)
Lemma take_insert_reject (k : nat) (c : A) (q : list A) :
  StronglySorted (holds leb) q ->
  k <= length (filter (fun e => leb e c = true) q) ->
  take k (insert leb c q) = take k q.
Proof.
  intros Hq. revert k. induction Hq as [|e q Hq IH Hall]; intros [|k]; simpl;
    try done.
  - intros Hk. exfalso. revert Hk. by inversion 1.
  - destruct (leb e c) eqn:Hec.
    + rewrite filter_cons_True by done. simpl. intros Hk.
      f_equal. apply IH. lia.
    + rewrite filter_cons_False by congruence.
      destruct (filter (fun e0 => leb e0 c = true) q) as [|x rest] eqn:Hf;
        [ simpl; lia | ].
      assert (x ∈ filter (fun e0 => leb e0 c = true) q) as Hx
        by (rewrite Hf; left).
      apply list_elem_of_filter in Hx as [Hxc Hxq].
      rewrite Forall_forall in Hall. specialize (Hall x Hxq).
      destruct (leb_total e c) as [?|Hce]; [ congruence | ].
      assert (leb x e = true) as Hxe by (by eapply leb_trans).
      assert (x = e) as -> by (by apply leb_antisym).
      congruence.
Qed.

Lemma topk_reject (k : nat) (c : A) (l : list A) :
  k <= length (filter (fun e => leb e c = true) l) ->
  topk leb k (c :: l) = topk leb k l.
Proof.
  intros Hk. unfold topk, merge_into. simpl.
  apply take_insert_reject; [ apply foldr_insert_StronglySorted; constructor | ].
  by rewrite foldr_insert_Permutation, app_nil_r.
Qed.

Lemma StronglySorted_last (q : list A) (z : A) :
  StronglySorted (holds leb) q -> last q = Some z ->
  Forall (fun e => leb e z = true) q.
Proof.
  induction 1 as [|e q Hq IH Hall]; [ done | ].
  rewrite last_cons. destruct (last q) as [y|] eqn:Hlast.
  - intros [= ->]. constructor; [ | by apply IH ].
    rewrite Forall_forall in Hall. apply Hall. by apply last_Some_elem_of.
  - intros [= ->]. apply last_None in Hlast as ->.
    constructor; [ apply leb_refl | constructor ].
Qed.
End Order.

(** *** The order of the candidates *)

Lemma precedes_total (largest : bool) (a b : Cand) :
  precedes largest a b = true \/ precedes largest b a = true.
Proof.
  unfold precedes. destruct a as [va ia], b as [vb ib]; simpl.
  rewrite (Z.eqb_sym vb va).
  destruct (Z.eqb_spec va vb) as [->|Hne].
  - destruct (Nat.leb_spec ia ib), (Nat.leb_spec ib ia); auto; lia.
  - destruct largest, (Z.ltb_spec vb va), (Z.ltb_spec va vb); auto; lia.
Qed.

Lemma precedes_trans (largest : bool) (a b c : Cand) :
  precedes largest a b = true -> precedes largest b c = true ->
  precedes largest a c = true.
Proof.
  unfold precedes. destruct a as [va ia], b as [vb ib], c as [vc ic]; simpl.
  destruct (Z.eqb_spec va vb), (Z.eqb_spec vb vc), (Z.eqb_spec va vc), largest;
    rewrite ?Nat.leb_le, ?Z.ltb_lt; lia.
Qed.

Lemma precedes_antisym (largest : bool) (a b : Cand) :
  precedes largest a b = true -> precedes largest b a = true -> a = b.
Proof.
  unfold precedes. destruct a as [va ia], b as [vb ib]; simpl.
  rewrite (Z.eqb_sym vb va).
  destruct (Z.eqb_spec va vb) as [->|Hne], largest;
    rewrite ?Nat.leb_le, ?Z.ltb_lt; intros; f_equal; lia.
Qed.

Lemma precedes_score (largest : bool) (a b : Cand) :
  precedes largest a b = true -> score_le largest (fst a) (fst b).
Proof.
  unfold precedes, score_le. destruct a as [va ia], b as [vb ib]; simpl.
  destruct (Z.eqb_spec va vb), largest; rewrite ?Nat.leb_le, ?Z.ltb_lt; lia.
Qed.

(** The facts on bounded ordered structures, for candidates. *)
Section Candidates.
Context (largest : bool).

Local Hint Resolve precedes_total precedes_trans precedes_antisym : core.

Lemma cand_topk_Permutation (k : nat) (l1 l2 : list Cand) :
  l1 ≡ₚ l2 -> topk (precedes largest) k l1 = topk (precedes largest) k l2.
Proof. intros. eapply topk_Permutation; eauto. Qed.

Lemma cand_merge_into_topk (k : nat) (q buf : list Cand) :
  StronglySorted (holds (precedes largest)) q ->
  merge_into (precedes largest) k q buf = topk (precedes largest) k (buf ++ q).
Proof. intros. eapply merge_into_topk; eauto. Qed.

Lemma cand_topk_StronglySorted (k : nat) (l : list Cand) :
  StronglySorted (holds (precedes largest)) (topk (precedes largest) k l).
Proof. eapply topk_StronglySorted; eauto. Qed.

Lemma cand_topk_idemp (k : nat) (l : list Cand) :
  topk (precedes largest) k (topk (precedes largest) k l)
  = topk (precedes largest) k l.
Proof. eapply topk_idemp; eauto. Qed.

Lemma cand_topk_concat (k : nat) (ls : list (list Cand)) :
  topk (precedes largest) k (concat (map (topk (precedes largest) k) ls))
  = topk (precedes largest) k (concat ls).
Proof. eapply topk_concat; eauto. Qed.

Lemma cand_topk_reject (k : nat) (c : Cand) (l : list Cand) :
  k <= length (filter (fun e => precedes largest e c = true) l) ->
  topk (precedes largest) k (c :: l) = topk (precedes largest) k l.
Proof. intros. eapply topk_reject; eauto. Qed.

Lemma cand_sorted_last (q : list Cand) (z : Cand) :
  StronglySorted (holds (precedes largest)) q -> last q = Some z ->
  Forall (fun e => precedes largest e z = true) q.
Proof. intros. eapply StronglySorted_last; eauto. Qed.

Lemma cand_sorted_all (l : list Cand) :
  StronglySorted (holds (precedes largest)) (foldr (insert (precedes largest)) [] l).
Proof. eapply foldr_insert_StronglySorted; eauto. constructor. Qed.
End Candidates.

(** *** Pieces of a row *)

Lemma chunks_fuel_concat {A : Type} (fuel n : nat) (l : list A) :
  length l <= fuel -> concat (chunks_fuel fuel n l) = l.
Proof.
  revert l. induction fuel as [|fuel IH]; intros l Hl; simpl.
  - destruct l; [ done | simpl in Hl; lia ].
  - destruct l as [|x l]; [ done | ].
    change (concat (take (S n) (x :: l) :: chunks_fuel fuel n (drop (S n) (x :: l)))
            = x :: l).
    simpl concat. rewrite IH; [ simpl; f_equal; apply take_drop | ].
    rewrite length_drop. simpl in *. lia.
Qed.

Lemma chunks_concat {A : Type} (n : nat) (l : list A) : concat (chunks n l) = l.
Proof. by apply chunks_fuel_concat. Qed.

Lemma chunks_fuel_length {A : Type} (fuel n : nat) (l : list A) :
  Forall (fun c => length c <= S n) (chunks_fuel fuel n l).
Proof.
  revert l. induction fuel as [|fuel IH]; intros l; simpl; [ constructor | ].
  destruct l as [|x l]; [ constructor | ].
  constructor; [ | apply IH ].
  rewrite length_take. lia.
Qed.

Lemma chunks_warp_size (l : list Cand) :
  Forall (fun c => length c <= warp_size) (chunks warp_size l).
Proof. apply (chunks_fuel_length (length l) (pred warp_size) l). Qed.

(** *** One warp *)

Lemma admits_false_filter (largest : bool) (k : nat) (q : list Cand) (c : Cand) :
  StronglySorted (holds (precedes largest)) q ->
  length q <= k ->
  admits largest k q c = false ->
  k <= length (filter (fun e => precedes largest e c = true) q).
Proof.
  intros Hq Hlen. unfold admits.
  destruct (Nat.ltb_spec (length q) k) as [|Hge]; [ done | ].
  destruct (last q) as [kth|] eqn:Hlast.
  - intros Hc. apply negb_false_iff in Hc.
    rewrite length_filter_Forall; [ lia | ].
    eapply Forall_impl.
    + by apply (cand_sorted_last largest q kth).
    + intros e He. simpl in He. by eapply precedes_trans.
  - apply last_None in Hlast as ->. simpl in *. lia.
Qed.

Lemma offer_all_length (largest : bool) (k : nat) (q : list Cand)
    (bufs : list (list Cand)) (cs : list Cand) :
  length (offer_all largest k q bufs cs) = length bufs.
Proof.
  revert cs. induction bufs as [|buf bufs IH]; intros [|c cs]; simpl; try done.
  by rewrite IH.
Qed.

Lemma offer_all_concat (largest : bool) (k : nat) (q : list Cand)
    (bufs : list (list Cand)) (cs : list Cand) :
  length cs <= length bufs ->
  concat (offer_all largest k q bufs cs)
  ≡ₚ filter (fun c => admits largest k q c = true) cs ++ concat bufs.
Proof.
  revert cs. induction bufs as [|buf bufs IH]; intros [|c cs]; simpl; try done.
  - lia.
  - intros Hlen. rewrite IH by lia.
    destruct (admits largest k q c) eqn:Hc.
    + rewrite filter_cons_True by done. simpl.
      apply perm_skip. rewrite !app_assoc. apply Permutation_app_tail.
      apply Permutation_app_comm.
    + rewrite filter_cons_False by congruence.
      rewrite !app_assoc. apply Permutation_app_tail.
      apply Permutation_app_comm.
Qed.

(** Rejecting by the current k-th best loses nothing. *)
Lemma offer_topk (largest : bool) (k : nat) (q rest cs : list Cand) :
  StronglySorted (holds (precedes largest)) q ->
  length q <= k ->
  topk (precedes largest) k
    (filter (fun c => admits largest k q c = true) cs ++ (rest ++ q))
  = topk (precedes largest) k (cs ++ (rest ++ q)).
Proof.
  intros Hq Hlen. induction cs as [|c cs IH]; [ done | ].
  destruct (admits largest k q c) eqn:Hc.
  - rewrite filter_cons_True by done. simpl.
    by apply (topk_cons_congr (precedes largest)).
  - rewrite filter_cons_False by congruence. rewrite IH. simpl.
    symmetry. apply cand_topk_reject.
    rewrite !filter_app, !length_app.
    pose proof (admits_false_filter largest k q c Hq Hlen Hc). lia.
Qed.

Lemma concat_cleared {A B : Type} (l : list B) :
  concat (map (fun _ => @nil A) l) = [].
Proof. induction l as [|x l IH]; simpl; done. Qed.

Lemma flush_queue (largest : bool) (k : nat) (st : WarpState) :
  StronglySorted (holds (precedes largest)) (warp_queue st) ->
  warp_queue (flush largest k st)
  = topk (precedes largest) k (concat (lanes st) ++ warp_queue st).
Proof.
  intros Hq. simpl.
  by apply cand_merge_into_topk.
Qed.

Lemma flush_inv (largest : bool) (k : nat) (st : WarpState) (seen : list Cand) :
  warp_inv largest k st seen -> warp_inv largest k (flush largest k st) seen.
Proof.
  intros (Hlanes & Hq & Hlen & Htop).
  unfold warp_inv. rewrite flush_queue by done.
  simpl lanes. rewrite length_map, concat_cleared. simpl.
  split; [ done | ].
  split; [ apply cand_topk_StronglySorted | ].
  split; [ rewrite topk_length; lia | ].
  rewrite <- Htop. apply cand_topk_idemp.
Qed.

Lemma round_inv (inst : Instantiation) (k : nat) (st : WarpState)
    (seen cs : list Cand) :
  length cs <= warp_size ->
  warp_inv (dir inst) k st seen ->
  warp_inv (dir inst) k (round inst k st cs) (seen ++ cs).
Proof.
  intros Hcs (Hlanes & Hq & Hlen & Htop).
  assert (warp_inv (dir inst) k
            (mkWarpState (offer_all (dir inst) k (warp_queue st) (lanes st) cs)
                         (warp_queue st)) (seen ++ cs)) as Hinv.
  { unfold warp_inv; simpl. rewrite offer_all_length.
    split; [ done | ]. split; [ done | ]. split; [ done | ].
    rewrite (cand_topk_Permutation (dir inst) k _
               (filter (fun c => admits (dir inst) k (warp_queue st) c = true) cs
                ++ (concat (lanes st) ++ warp_queue st))).
    - rewrite offer_topk by done.
      rewrite (topk_app_congr _ k cs _ seen Htop).
      apply cand_topk_Permutation, Permutation_app_comm.
    - rewrite offer_all_concat by lia. by rewrite app_assoc. }
  unfold round.
  destruct (existsb _ _); [ by apply flush_inv | done ].
Qed.

Lemma rounds_inv (inst : Instantiation) (k : nat) (pieces : list (list Cand))
    (st : WarpState) (seen : list Cand) :
  Forall (fun c => length c <= warp_size) pieces ->
  warp_inv (dir inst) k st seen ->
  warp_inv (dir inst) k (fold_left (round inst k) pieces st) (seen ++ concat pieces).
Proof.
  intros Hpieces. revert st seen.
  induction Hpieces as [|cs pieces Hcs Hrest IH]; intros st seen Hinv; simpl.
  - by rewrite app_nil_r.
  - rewrite app_assoc. apply IH. by apply round_inv.
Qed.

Lemma warp_start_inv (largest : bool) (k : nat) : warp_inv largest k warp_start [].
Proof.
  unfold warp_inv, warp_start; simpl.
  split; [ done | ]. split; [ constructor | ]. split; [ lia | done ].
Qed.

(** A warp returns the first k candidates of its slice. *)
Lemma warp_select_topk (inst : Instantiation) (k : nat) (slice : list Cand) :
  warp_select inst k slice = topk (precedes (dir inst)) k slice.
Proof.
  unfold warp_select.
  pose proof (rounds_inv inst k (chunks warp_size slice) warp_start []
                (chunks_warp_size slice) (warp_start_inv (dir inst) k)) as Hinv.
  rewrite chunks_concat in Hinv. simpl in Hinv.
  destruct Hinv as (_ & Hq & _ & Htop).
  rewrite flush_queue by done. exact Htop.
Qed.

(** The block returns the first k candidates of the row. *)
Lemma block_select_topk (inst : Instantiation) (num_warps k : nat) (row : list Z) :
  block_select inst num_warps k row = topk (precedes (dir inst)) k (indexed row).
Proof.
  unfold block_select.
  rewrite (map_ext _ _ (warp_select_topk inst k)).
  fold (topk (precedes (dir inst)) k
          (concat (map (topk (precedes (dir inst)) k)
             (chunks (slice_length num_warps (length row)) (indexed row))))).
  by rewrite cand_topk_concat, chunks_concat.
Qed.

(** *** Against the reference sort *)

Lemma map_fmap {A B : Type} (f : A -> B) (l : list A) : map f l = f <$> l.
Proof. induction l as [|x l IH]; simpl; [ done | ]. by rewrite IH. Qed.

Lemma indexed_fst (row : list Z) : fst <$> indexed row = row.
Proof. unfold indexed. apply fst_zip. by rewrite length_seq. Qed.

Lemma indexed_snd (row : list Z) : snd <$> indexed row = seq 0 (length row).
Proof. unfold indexed. apply snd_zip. by rewrite length_seq. Qed.

Lemma indexed_length (row : list Z) : length (indexed row) = length row.
Proof. rewrite <- (indexed_fst row) at 2. by rewrite length_fmap. Qed.

Lemma indexed_lookup (row : list Z) (c : Cand) :
  c ∈ indexed row -> row !! snd c = Some (fst c).
Proof.
  unfold indexed. intros Hc. apply list_elem_of_lookup in Hc as [i Hi].
  destruct c as [v j]. apply lookup_zip_Some in Hi as [Hv Hj].
  apply lookup_seq in Hj as [-> _]. done.
Qed.

#[local] Instance score_le_total (largest : bool) : Total (score_le largest).
Proof. intros a b. unfold score_le. destruct largest; lia. Qed.

#[local] Instance score_le_trans (largest : bool) : Transitive (score_le largest).
Proof. intros a b c. unfold score_le. destruct largest; lia. Qed.

#[local] Instance score_le_antisym (largest : bool) : AntiSymm (=) (score_le largest).
Proof. intros a b. unfold score_le. destruct largest; lia. Qed.

(** The scores of the candidates in order are the row sorted by the
    reference sort. *)
Lemma sorted_scores (largest : bool) (row : list Z) :
  fst <$> foldr (insert (precedes largest)) [] (indexed row)
  = merge_sort (score_le largest) row.
Proof.
  apply (StronglySorted_unique (score_le largest)).
  - eapply StronglySorted_fmap; [ | apply cand_sorted_all ].
    intros a b. apply precedes_score.
  - apply StronglySorted_merge_sort; apply _.
  - rewrite foldr_insert_Permutation, app_nil_r, indexed_fst.
    by rewrite merge_sort_Permutation.
Qed.

Lemma topk_scores (largest : bool) (k : nat) (row : list Z) :
  fst <$> topk (precedes largest) k (indexed row) = reference_topk largest k row.
Proof.
  unfold topk, merge_into, reference_topk.
  by rewrite fmap_take, sorted_scores.
Qed.

Lemma topk_positions (largest : bool) (k : nat) (row : list Z) :
  NoDup (snd <$> topk (precedes largest) k (indexed row)).
Proof.
  unfold topk, merge_into. rewrite fmap_take.
  eapply sublist_NoDup; [ | apply sublist_take ].
  rewrite foldr_insert_Permutation, app_nil_r, indexed_snd.
  apply NoDup_seq.
Qed.

(** C8: for every instantiation of the selector, every number of warps,
    every k and every row of N scores, the values returned are the first
    k values of the row sorted in the direction asked for (so they are
    the true top-k multiset), each returned with a position at which the
    row holds it, no position twice; min(k, N) entries are returned, all
    N entries of the row when k >= N, none when k = 0 and none when the
    row is empty. *)
Theorem block_select_correct (inst : Instantiation) (num_warps k : nat)
    (row : list Z) :
  map fst (block_select inst num_warps k row) = reference_topk (dir inst) k row /\
  Forall (fun c => row !! snd c = Some (fst c)) (block_select inst num_warps k row) /\
  NoDup (map snd (block_select inst num_warps k row)) /\
  length (block_select inst num_warps k row) = Nat.min k (length row) /\
  block_select inst num_warps (length row + k) row ≡ₚ indexed row /\
  block_select inst num_warps 0 row = [] /\
  block_select inst num_warps k [] = [].
Proof.
  rewrite !block_select_topk, !map_fmap.
  split; [ apply topk_scores | ].
  split.
  { apply Forall_forall. intros c Hc.
    apply indexed_lookup. by apply (topk_elem_of (precedes (dir inst)) k). }
  split; [ apply topk_positions | ].
  split.
  { by rewrite topk_length, indexed_length. }
  split.
  { apply topk_all. rewrite indexed_length. lia. }
  split; [ done | ].
  unfold topk, merge_into. simpl. by rewrite take_nil.
Qed.

(** The scenario of section 8 of the spec, for the largest scores, and
    the same row under the instantiation of the sources. *)
Example block_select_sample :
  block_select (mkInstantiation true 1024 8) 4 3 [5; 1; 9; 9; 3; 7]%Z
  = [(9%Z, 2); (9%Z, 3); (7%Z, 5)] /\
  block_select float_false_1024_8 4 3 [5; 1; 9; 9; 3; 7]%Z
  = [(1%Z, 1); (3%Z, 4); (5%Z, 0)].
Proof. by vm_compute. Qed.

End WarpSelectFacts.


(** * Facts about the uses of reservations *)

Module UsageFacts.
Import Reservation ReservationFacts Usage.

Lemma ctor_spec (x : nat) (r dev str p : Z) (sz : N) (w : World) :
  objs w !! x = None ->
  ctor x r dev str p sz w =
    Ok tt (mkWorld (<[x := mkReservation r dev str p sz]> (objs w)) (calls w)).
Proof. intros Hx. unfold ctor, declare. by rewrite Hx. Qed.

Lemma owned_receiver (r : GpuMemoryReservation) :
  Forall (fun c => call_res c <> nullptr) (owned r).
Proof.
  unfold owned. destruct (truthy (res r)) eqn:Hres; [ | constructor ].
  apply truthy_true in Hres. by repeat constructor.
Qed.

Lemma exec_receiver (o : op) (w w' : World) :
  Forall (fun c => call_res c <> nullptr) (calls w) ->
  exec o w = Ok tt w' ->
  Forall (fun c => call_res c <> nullptr) (calls w').
Proof.
  intros Hw.
  destruct o as [x | x r dev str p sz | x m | d m | x | x]; simpl.
  - unfold default_ctor, declare.
    destruct (objs w !! x); [ done | ]. by intros [= <-].
  - unfold ctor, declare.
    destruct (objs w !! x); [ done | ]. by intros [= <-].
  - destruct (objs w !! m) as [s|] eqn:Hm;
      [ | unfold move_ctor, move_ctor_from; by step_monad ].
    destruct (objs w !! x) as [a|] eqn:Hx;
      [ unfold move_ctor, move_ctor_from; by step_monad | ].
    unfold move_ctor. rewrite (move_ctor_from_spec _ x m w s Hx Hm).
    by intros [= <-].
  - destruct (objs w !! d) as [rd|] eqn:Hd;
      [ | unfold move_assign; by step_monad ].
    destruct (objs w !! m) as [rs|] eqn:Hm;
      [ | unfold move_assign; by step_monad ].
    rewrite (move_assign_spec d m w rd rs Hd Hm).
    destruct (same_live_allocation rd rs); [ done | ].
    intros [= <-]; simpl. apply Forall_app. split; [ done | apply owned_receiver ].
  - destruct (objs w !! x) as [r|] eqn:Hx;
      [ | unfold release; by step_monad ].
    rewrite (release_spec x w r Hx). intros [= <-].
    pose proof (owned_receiver r) as Hr. unfold owned in Hr.
    destruct (truthy (res r)); simpl; [ | done ].
    apply Forall_app. by split.
  - destruct (objs w !! x) as [r|] eqn:Hx;
      [ | unfold dtor; by step_monad ].
    rewrite (dtor_spec x w r Hx). intros [= <-]; simpl.
    apply Forall_app. split; [ done | apply owned_receiver ].
Qed.

Lemma run_receiver (ops : list op) (w w' : World) :
  Forall (fun c => call_res c <> nullptr) (calls w) ->
  run ops w = Ok tt w' ->
  Forall (fun c => call_res c <> nullptr) (calls w').
Proof.
  revert w. induction ops as [|o rest IH]; intros w Hw; simpl.
  - by intros [= <-].
  - unfold bind. destruct (exec o w) as [[] w1| |] eqn:Ho; [ | done | done ].
    apply IH. by apply (exec_receiver o w).
Qed.

(** X1: deallocMemory is never called through a null resource pointer:
    in the world in which a sequence of operations returns, or is stopped
    by the assertion, every recorded call has a receiver that is not
    null. *)
Theorem deallocMemory_receiver_not_null (ops : list op) (w : World) :
  run ops init = Ok tt w \/ run ops init = Fatal w ->
  Forall (fun c => call_res c <> nullptr) (calls w).
Proof.
  intros [Hrun | Hrun].
  - apply (run_receiver ops init w); [ constructor | done ].
  - destruct (run_fatal_prefix ops init w Hrun) as (pre & d & m & rest & _ & Hpre & _).
    apply (run_receiver pre init w); [ constructor | done ].
Qed.

Lemma deallocMemory_receiver_not_null_witness :
  Forall (fun c => call_res c <> nullptr) [mkCall 1 0 100; mkCall 1 0 200].
Proof.
  apply (deallocMemory_receiver_not_null demo_ops
           (mkWorld ∅ [mkCall 1 0 100; mkCall 1 0 200])).
  left. vm_compute. reflexivity.
Defined.

(** X2: a run stops with a fatal assertion only at a move assignment
    whose destination holds a resource and agrees with the source on
    resource, device and data pointer; the world is then the one built
    by the operations before it, and in it the calls made and the
    allocations still held are exactly the allocations handed over so
    far, so nothing has been returned twice. *)
Theorem assertion_failure_accounting (ops : list op) (w : World) :
  run ops init = Fatal w ->
  exists (pre rest : list op) (d m : nat) (rd rs : GpuMemoryReservation),
    ops = pre ++ MoveAssign d m :: rest /\
    run pre init = Ok tt w /\
    objs w !! d = Some rd /\ objs w !! m = Some rs /\
    res rd <> nullptr /\ res rd = res rs /\ device rd = device rs /\
    data rd = data rs /\
    calls w ++ held (objs w) ≡ₚ handed pre.
Proof.
  intros Hrun.
  destruct (run_fatal_prefix ops init w Hrun) as (pre & d & m & rest & -> & Hpre & Hf).
  destruct (objs w !! d) as [rd|] eqn:Hd;
    [ | revert Hf; unfold move_assign; by step_monad ].
  destruct (objs w !! m) as [rs|] eqn:Hm;
    [ | revert Hf; unfold move_assign; by step_monad ].
  rewrite (move_assign_spec d m w rd rs Hd Hm) in Hf.
  destruct (same_live_allocation rd rs) eqn:Hsame; [ | done ].
  apply same_live_allocation_iff in Hsame as (H1 & H2 & H3 & H4).
  exists pre, rest, d, m, rd, rs.
  repeat (split; [ done | ]).
  pose proof (run_accounted pre init w Hpre) as Hacc.
  unfold accounted in Hacc. simpl in Hacc. by rewrite held_empty in Hacc.
Qed.

Lemma assertion_failure_accounting_witness :
  exists (pre rest : list op) (d m : nat) (rd rs : GpuMemoryReservation),
    aborting_ops = pre ++ MoveAssign d m :: rest /\
    run pre init = Ok tt (mkWorld {[ 0 := mkReservation 1 0 7 100 8 ]} []) /\
    objs (mkWorld {[ 0 := mkReservation 1 0 7 100 8 ]} []) !! d = Some rd /\
    objs (mkWorld {[ 0 := mkReservation 1 0 7 100 8 ]} []) !! m = Some rs /\
    res rd <> nullptr /\ res rd = res rs /\ device rd = device rs /\
    data rd = data rs /\
    calls (mkWorld {[ 0 := mkReservation 1 0 7 100 8 ]} [])
      ++ held (objs (mkWorld {[ 0 := mkReservation 1 0 7 100 8 ]} []))
    ≡ₚ handed pre.
Proof.
  apply (assertion_failure_accounting aborting_ops).
  vm_compute. reflexivity.
Defined.

(** X3: exchanging two live reservations by the three moves of
    std::swap never fails the assertion and calls deallocMemory not at
    all: each object ends with the fields of the other, also when both
    hold the same allocation, and when both names denote one object
    (which a single move assignment onto itself does not survive) the
    object is unchanged. *)
Theorem swap_by_moves_exchanges (tmp a b : nat) (w : World)
    (ra rb : GpuMemoryReservation) :
  objs w !! tmp = None ->
  objs w !! a = Some ra ->
  objs w !! b = Some rb ->
  swap_by_moves tmp a b w =
    Ok tt (mkWorld (<[a := rb]> (<[b := ra]> (objs w))) (calls w)).
Proof.
  intros Htmp Ha Hb.
  assert (tmp <> a) as Hta by (intros ->; congruence).
  assert (tmp <> b) as Htb by (intros ->; congruence).
  unfold swap_by_moves, move_ctor, bind.
  rewrite (move_ctor_from_spec _ tmp a w ra Htmp Ha). lazy beta iota.
  rewrite (move_assign_spec a b _ empty_state
             (if decide (a = b) then empty_state else rb)).
  2: { simpl. by rewrite lookup_insert_eq. }
  2: { simpl. case_decide as Hab.
       - subst b. by rewrite lookup_insert_eq.
       - by rewrite !lookup_insert_ne by done. }
  assert (same_live_allocation empty_state
            (if decide (a = b) then empty_state else rb) = false) as -> by done.
  lazy beta iota.
  rewrite (move_assign_spec b tmp _
             (if decide (a = b) then empty_state else empty_state) ra).
  2: { simpl. rewrite lookup_insert_eq. by case_decide. }
  2: { simpl. rewrite !lookup_insert_ne by done. by rewrite lookup_insert_eq. }
  assert (same_live_allocation
            (if decide (a = b) then empty_state else empty_state) ra = false)
    as -> by (by case_decide).
  lazy beta iota.
  rewrite (dtor_spec tmp _ empty_state) by (simpl; by rewrite lookup_insert_eq).
  simpl. rewrite owned_empty_state.
  assert (owned (if decide (a = b) then empty_state else empty_state) = []) as ->
    by (by case_decide).
  rewrite !app_nil_r. f_equal. f_equal.
  apply map_eq. intros i.
  destruct (decide (i = tmp)) as [->|Hit].
  { rewrite lookup_delete_eq. by rewrite !lookup_insert_ne by done. }
  rewrite lookup_delete_ne by done.
  rewrite (lookup_insert_ne _ tmp i) by done.
  destruct (decide (i = b)) as [->|Hib].
  { rewrite lookup_insert_eq.
    destruct (decide (a = b)) as [->|Hab].
    - rewrite lookup_insert_eq. congruence.
    - rewrite lookup_insert_ne by done. by rewrite lookup_insert_eq. }
  rewrite !(lookup_insert_ne _ b i) by done.
  destruct (decide (i = a)) as [->|Hia].
  { rewrite !lookup_insert_eq. case_decide; [ congruence | done ]. }
  rewrite !(lookup_insert_ne _ a i) by done.
  rewrite !lookup_insert_ne by done. done.
Qed.

Lemma swap_by_moves_exchanges_witness :
  swap_by_moves 2 0 1 two_objects =
    Ok tt (mkWorld (<[0 := empty_state]>
                      (<[1 := mkReservation 1 0 7 100 8]> (objs two_objects))) []) /\
  swap_by_moves 2 0 0 two_objects =
    Ok tt (mkWorld (<[0 := mkReservation 1 0 7 100 8]>
                      (<[0 := mkReservation 1 0 7 100 8]> (objs two_objects))) []).
Proof.
  split.
  - exact (swap_by_moves_exchanges 2 0 1 two_objects _ _ eq_refl eq_refl eq_refl).
  - exact (swap_by_moves_exchanges 2 0 0 two_objects _ _ eq_refl eq_refl eq_refl).
Defined.

(** X4: calling release() on a live reservation right before its
    destructor makes no difference to what the destructor alone does:
    the same calls of deallocMemory, the same objects left.  The
    destructor never returns again what release() has returned. *)
Theorem release_then_destroy (x : nat) (w : World) (r : GpuMemoryReservation) :
  objs w !! x = Some r ->
  run [Release x; Destroy x] w = run [Destroy x] w /\
  run [Destroy x] w = Ok tt (mkWorld (delete x (objs w)) (calls w ++ owned r)).
Proof.
  intros Hx. simpl. unfold bind, ret.
  rewrite (release_spec x w r Hx), (dtor_spec x w r Hx).
  split; [ | done ].
  unfold owned. destruct (truthy (res r)) eqn:Hres.
  - rewrite (dtor_spec x _ empty_state) by (simpl; by rewrite lookup_insert_eq).
    simpl. by rewrite owned_empty_state, app_nil_r, delete_insert_eq.
  - rewrite (dtor_spec x w r Hx). unfold owned. by rewrite Hres.
Qed.

Lemma release_then_destroy_witness :
  run [Release 0; Destroy 0] two_objects = run [Destroy 0] two_objects /\
  run [Destroy 0] two_objects =
    Ok tt (mkWorld (delete 0 (objs two_objects))
                   (calls two_objects ++ owned (mkReservation 1 0 7 100 8))).
Proof.
  exact (release_then_destroy 0 two_objects (mkReservation 1 0 7 100 8) eq_refl).
Defined.

(** X5: move-constructing a new reservation from a live one and then
    destroying the old one calls deallocMemory not at all: the fields
    have only changed holder, and the destructor of the moved-from object
    returns nothing. *)
Theorem move_then_destroy_source (y x : nat) (w : World) (r : GpuMemoryReservation) :
  objs w !! y = None ->
  objs w !! x = Some r ->
  run [MoveConstruct y x; Destroy x] w =
    Ok tt (mkWorld (<[y := r]> (delete x (objs w))) (calls w)).
Proof.
  intros Hy Hx. assert (y <> x) as Hne by (intros ->; congruence).
  simpl. unfold bind, ret, move_ctor.
  rewrite (move_ctor_from_spec _ y x w r Hy Hx).
  rewrite (dtor_spec x _ empty_state) by (simpl; by rewrite lookup_insert_eq).
  simpl. rewrite owned_empty_state, app_nil_r, delete_insert_eq.
  by rewrite delete_insert_ne by done.
Qed.

Lemma move_then_destroy_source_witness :
  run [MoveConstruct 2 0; Destroy 0] two_objects =
    Ok tt (mkWorld (<[2 := mkReservation 1 0 7 100 8]> (delete 0 (objs two_objects)))
                   []).
Proof.
  exact (move_then_destroy_source 2 0 two_objects (mkReservation 1 0 7 100 8)
           eq_refl eq_refl).
Defined.

(** X6: the constructor from an allocation does not notice that another
    live reservation already holds the same allocation: two reservations
    built from one resource, device and data pointer and then destroyed
    make two calls of deallocMemory with the same arguments. *)
Theorem aliased_construction_returns_twice (x y : nat) (w : World)
    (r dev p str str' : Z) (sz sz' : N) :
  objs w !! x = None ->
  objs w !! y = None ->
  x <> y ->
  r <> nullptr ->
  run [Construct x r dev str p sz; Construct y r dev str' p sz';
       Destroy x; Destroy y] w =
    Ok tt (mkWorld (objs w) (calls w ++ [mkCall r dev p; mkCall r dev p])).
Proof.
  intros Hx Hy Hne Hr. apply truthy_true in Hr.
  simpl. unfold bind, ret.
  rewrite (ctor_spec x r dev str p sz w Hx).
  rewrite ctor_spec by (simpl; by rewrite lookup_insert_ne).
  rewrite (dtor_spec x _ (mkReservation r dev str p sz))
    by (simpl; rewrite lookup_insert_ne by done; by rewrite lookup_insert_eq).
  rewrite (dtor_spec y _ (mkReservation r dev str' p sz'))
    by (simpl; rewrite lookup_delete_ne by done; by rewrite lookup_insert_eq).
  simpl. unfold owned; simpl. rewrite Hr. rewrite <- app_assoc. simpl.
  f_equal. f_equal.
  rewrite delete_insert_ne by done. rewrite delete_insert_eq.
  rewrite delete_insert_eq.
  rewrite (delete_id (objs w) x) by done. by rewrite delete_id.
Qed.

Lemma aliased_construction_returns_twice_witness :
  run [Construct 0 1 0 7 100 8; Construct 1 1 0 9 100 8; Destroy 0; Destroy 1] init =
    Ok tt (mkWorld ∅ [mkCall 1 0 100; mkCall 1 0 100]).
Proof.
  apply (aliased_construction_returns_twice 0 1 init 1 0 100 7 9 8 8);
    [ reflexivity | reflexivity | lia | discriminate ].
Defined.

(** X7: a handle obtained from allocMemoryHandle on an instance and
    dropped at the end of its scope, with or without a release() by hand
    in between, causes exactly one call of deallocMemory: on that
    instance, with the device of the request and the pointer allocMemory
    returned, whatever that pointer is (a null pointer included). *)
Theorem handle_scope_returns_once (allocMemory : Allocator) (this : Z) (x : nat)
    (req : AllocDesc.AllocRequest) (early_release : bool) (w : World) :
  this <> nullptr ->
  objs w !! x = None ->
  handle_scope allocMemory this x req early_release w =
    Ok tt (mkWorld (objs w)
             (calls w ++ [mkCall this (AllocDesc.device (AllocDesc.info req))
                                 (allocMemory w req)])).
Proof.
  intros Hthis Hx. apply truthy_true in Hthis.
  unfold handle_scope, allocMemoryHandle, bind.
  rewrite (ctor_spec x _ _ _ _ _ w Hx).
  destruct early_release.
  - erewrite release_spec by (simpl; by rewrite lookup_insert_eq).
    simpl. rewrite Hthis.
    rewrite (dtor_spec x _ empty_state) by (simpl; by rewrite lookup_insert_eq).
    simpl. rewrite owned_empty_state, app_nil_r.
    by rewrite !delete_insert_eq, delete_id.
  - unfold ret.
    erewrite dtor_spec by (simpl; by rewrite lookup_insert_eq).
    simpl. unfold owned; simpl. rewrite Hthis.
    by rewrite delete_insert_eq, delete_id.
Qed.

Lemma handle_scope_returns_once_witness :
  handle_scope sample_allocator 1 0 sample_request true init =
    Ok tt (mkWorld ∅ [mkCall 1 2 4096]) /\
  handle_scope sample_allocator 1 0 sample_request false init =
    Ok tt (mkWorld ∅ [mkCall 1 2 4096]).
Proof.
  split.
  - apply (handle_scope_returns_once sample_allocator 1 0 sample_request true init);
      [ discriminate | reflexivity ].
  - apply (handle_scope_returns_once sample_allocator 1 0 sample_request false init);
      [ discriminate | reflexivity ].
Defined.

Lemma same_live_allocation_empty_source (rd : GpuMemoryReservation) :
  same_live_allocation rd empty_state = false.
Proof.
  unfold same_live_allocation, truthy, empty_state; simpl.
  by destruct (res rd =? nullptr)%Z.
Qed.

(** X8: assigning a default-constructed temporary to a live reservation,
    d = GpuMemoryReservation(), never fails the assertion and acts as
    release(): the allocation d held, if any, is returned once and d is
    left in the empty state. *)
Theorem assign_default_releases (tmp d : nat) (w : World) (rd : GpuMemoryReservation) :
  objs w !! tmp = None ->
  objs w !! d = Some rd ->
  assign_default tmp d w =
    Ok tt (mkWorld (<[d := empty_state]> (objs w)) (calls w ++ owned rd)).
Proof.
  intros Htmp Hd. assert (tmp <> d) as Hne by (intros ->; congruence).
  unfold assign_default, default_ctor, declare, bind. rewrite Htmp.
  rewrite (move_assign_spec d tmp _ rd empty_state)
    by (simpl; rewrite ?lookup_insert_eq, ?lookup_insert_ne by done; done).
  rewrite same_live_allocation_empty_source.
  rewrite (dtor_spec tmp _ empty_state) by (simpl; by rewrite lookup_insert_eq).
  simpl. rewrite owned_empty_state, app_nil_r. f_equal. f_equal.
  rewrite delete_insert_eq, delete_insert_ne, delete_insert_eq by done.
  by rewrite delete_id.
Qed.

Lemma assign_default_releases_witness :
  assign_default 2 0 two_objects =
    Ok tt (mkWorld (<[0 := empty_state]> (objs two_objects)) [mkCall 1 0 100]).
Proof.
  exact (assign_default_releases 2 0 two_objects (mkReservation 1 0 7 100 8)
           eq_refl eq_refl).
Defined.

End UsageFacts.

(** * More on the names of the enumerations *)

Module AllocDescMore.
Import AllocDesc.

(** X9: the names printed for the enumerators are pairwise different and
    none of them is the name printed for an unnamed value: two values of
    AllocType, or of MemorySpace, with the same name are the same
    enumerator or are both unnamed. *)
Theorem enum_names_distinct :
  (forall t1 t2 : AllocType,
     allocTypeToString t1 = allocTypeToString t2 ->
     t1 = t2 \/ exists raw1 raw2 : Z,
                  t1 = AllocTypeUnnamed raw1 /\ t2 = AllocTypeUnnamed raw2) /\
  (forall s1 s2 : MemorySpace,
     memorySpaceToString s1 = memorySpaceToString s2 ->
     s1 = s2 \/ exists raw1 raw2 : Z,
                  s1 = MemorySpaceUnnamed raw1 /\ s2 = MemorySpaceUnnamed raw2).
Proof.
  split.
  - intros [] []; simpl; intros Heq; try discriminate Heq; eauto.
  - intros [] []; simpl; intros Heq; try discriminate Heq; eauto.
Qed.

End AllocDescMore.
